(** * Music playlist manager: the catalog of [PlaylistManager]

    A shallow embedding of the class [PlaylistManager] of
    [music_playlist_manager.py] (its four methods [add_song],
    [view_playlist], [update_song] and [delete_song]) and the properties
    of the catalog they maintain, followed by the statements [main] runs
    when a button is pressed and the colour it gives the message.  The
    window and drawing calls of [main] are not modelled. *)

From Stdlib Require Import List String Ascii NArith ZArith Bool Lia.
Import ListNotations.

(** ** Python strings

    A Python [str] is a sequence of Unicode code points. *)

Definition str := list N.

(** A string literal of the source, character by character. *)
Definition lit (s : string) : str :=
  List.map N_of_ascii (list_ascii_of_string s).

(** The escape [\n]. *)
Definition nl : str := [10%N].

Arguments lit : simpl never.
Arguments nl : simpl never.

Fixpoint str_eqb (a b : str) : bool :=
  match a, b with
  | [], [] => true
  | x :: a', y :: b' => N.eqb x y && str_eqb a' b'
  | _, _ => false
  end.

(** Truth value of a string: [not s] holds exactly for the empty one. *)
Definition str_not (s : str) : bool :=
  match s with [] => true | _ :: _ => false end.

(** The code points [str.strip()] removes when called without argument:
    those for which [str.isspace] holds (Python's whitespace table:
    U+0009..U+000D, U+001C..U+0020, U+0085, U+00A0, U+1680,
    U+2000..U+200A, U+2028, U+2029, U+202F, U+205F, U+3000). *)
Definition isspace (c : N) : bool :=
  ((9 <=? c) && (c <=? 13) || (28 <=? c) && (c <=? 32)
   || (c =? 133) || (c =? 160) || (c =? 5760)
   || (8192 <=? c) && (c <=? 8202)
   || (c =? 8232) || (c =? 8233) || (c =? 8239) || (c =? 8287)
   || (c =? 12288))%N.

Fixpoint lstrip (s : str) : str :=
  match s with
  | [] => []
  | c :: s' => if isspace c then lstrip s' else s
  end.

Definition rstrip (s : str) : str := rev (lstrip (rev s)).

(** [s.strip()]: skip the leading whitespace, then the trailing one. *)
Definition strip (s : str) : str := rstrip (lstrip s).

(** ** Python values reaching the methods

    The methods test their arguments with [isinstance(x, str)] and
    [x is not None], here a [match] on the constructor; [PyInt] stands
    for an argument of another type. *)

Inductive pyval : Type :=
| PyStr (s : str)
| PyNone
| PyInt (z : Z).

(** ** Exceptions raised inside the methods *)

Inductive exn : Type :=
| TypeError (msg : str)
| ValueError (msg : str)
| PlaylistError (msg : str)
| KeyError (key : str).

(** ** Dictionaries

    A Python [dict] keeps its entries in insertion order; assigning to a
    key that is present keeps the entry's position, deleting a key and
    inserting it again moves it to the end.  Keys are strings here. *)

Module Dict.
Set Implicit Arguments.
Section Ops.
Variable V : Type.

Definition t := list (str * V).

Definition empty : t := [].

(** [not d] *)
Definition is_empty (d : t) : bool :=
  match d with [] => true | _ :: _ => false end.

(** [d.items()] *)
Definition items (d : t) : list (str * V) := d.

Definition keys (d : t) : list str := List.map fst d.

(** [k in d] *)
Fixpoint contains (k : str) (d : t) : bool :=
  match d with
  | [] => false
  | (k', _) :: d' => if str_eqb k k' then true else contains k d'
  end.

(** [d[k]], [None] standing for [KeyError] *)
Fixpoint get (k : str) (d : t) : option V :=
  match d with
  | [] => None
  | (k', v) :: d' => if str_eqb k k' then Some v else get k d'
  end.

(** [d[k] = v] *)
Fixpoint set (k : str) (v : V) (d : t) : t :=
  match d with
  | [] => [(k, v)]
  | (k', v') :: d' =>
      if str_eqb k k' then (k', v) :: d' else (k', v') :: set k v d'
  end.

(** [del d[k]] for a key that is present *)
Fixpoint del (k : str) (d : t) : t :=
  match d with
  | [] => []
  | (k', v') :: d' =>
      if str_eqb k k' then d' else (k', v') :: del k d'
  end.

(** A dictionary holds each key once. *)
Definition wf (d : t) : Prop := NoDup (keys d).
End Ops.
Unset Implicit Arguments.
End Dict.

(** ** The state of a [PlaylistManager] *)

(** The inner dictionary [{"artist": ..., "genre": ...}] of a song. *)
Record details : Type := Details { artist : str; genre : str }.

Definition set_artist (d : details) (a : str) : details :=
  {| artist := a; genre := genre d |}.

Definition set_genre (d : details) (g : str) : details :=
  {| artist := artist d; genre := g |}.

Record PlaylistManager : Type := Manager { playlist : Dict.t details }.

(** [PlaylistManager()] *)
Definition init : PlaylistManager := {| playlist := Dict.empty details |}.

(** ** Method bodies: state and exceptions

    A statement either completes with a value or raises; in both cases
    the assignments done so far stay in the manager. *)

Inductive outcome (A : Type) : Type :=
| Done (a : A)
| Raised (e : exn).
Arguments Done {A} a.
Arguments Raised {A} e.

Definition M (A : Type) : Type := PlaylistManager -> outcome A * PlaylistManager.

Definition ret {A} (a : A) : M A := fun s => (Done a, s).

Definition bind {A B} (m : M A) (f : A -> M B) : M B :=
  fun s =>
    match m s with
    | (Done a, s') => f a s'
    | (Raised e, s') => (Raised e, s')
    end.

Definition raise {A} (e : exn) : M A := fun s => (Raised e, s).

Definition get_playlist : M (Dict.t details) := fun s => (Done (playlist s), s).

Definition put_playlist (d : Dict.t details) : M unit :=
  fun _ => (Done tt, {| playlist := d |}).

Declare Scope py_scope.
Delimit Scope py_scope with py.
Notation "x <- m ;; k" := (bind m (fun x => k))
  (at level 61, m at next level, right associativity) : py_scope.
Notation "m ;; k" := (bind m (fun _ => k))
  (at level 61, right associativity) : py_scope.
Open Scope py_scope.

(** [try: body except (classes) as e: return str(e)]; [handler] gives
    [str(e)] for an exception of a listed class and [None] for one that
    propagates. *)
Definition try_except (body : M str) (handler : exn -> option str) : M str :=
  fun s =>
    match body s with
    | (Done a, s') => (Done a, s')
    | (Raised e, s') =>
        match handler e with
        | Some m => (Done m, s')
        | None => (Raised e, s')
        end
    end.

(** [self.playlist[title][field] = value]: the inner dictionary of the
    song is changed in place, the entry keeps its position. *)
Definition setitem_field (title : str) (upd : details -> str -> details)
    (value : str) : M unit :=
  d <- get_playlist ;;
  match Dict.get title d with
  | Some det => put_playlist (Dict.set title (upd det value) d)
  | None => raise (KeyError title)
  end.

(** [del self.playlist[title]] *)
Definition delitem (title : str) : M unit :=
  d <- get_playlist ;;
  if Dict.contains title d then put_playlist (Dict.del title d)
  else raise (KeyError title).

(** ** Messages *)

Definition msg_added (title : str) : str :=
  lit "Song '" ++ title ++ lit "' added successfully!".
Definition msg_exists (title : str) : str :=
  lit "Song '" ++ title ++ lit "' already exists!".
Definition msg_not_found (title : str) : str :=
  lit "Song '" ++ title ++ lit "' not found in playlist!".
Definition msg_updated (title : str) : str :=
  lit "Song '" ++ title ++ lit "' updated successfully!".
Definition msg_deleted (title : str) : str :=
  lit "Song '" ++ title ++ lit "' deleted successfully!".
Definition msg_empty_field : str :=
  lit "Title, artist, and genre cannot be empty".
Definition msg_playlist_empty : str := lit "Playlist is empty".

(** ** [add_song] *)

Definition add_song_body (title artist genre : pyval) : M str :=
  match title, artist, genre with
  | PyStr title, PyStr artist, PyStr genre =>
      let title := strip title in
      let artist := strip artist in
      let genre := strip genre in
      if str_not title || str_not artist || str_not genre then
        raise (ValueError msg_empty_field)
      else
        d <- get_playlist ;;
        if Dict.contains title d then
          raise (PlaylistError (msg_exists title))
        else
          put_playlist
            (Dict.set title {| artist := artist; genre := genre |} d) ;;
          ret (msg_added title)
  | _, _, _ => raise (TypeError (lit "Title, artist, and genre must be strings"))
  end.

Definition add_song (title artist genre : pyval) : M str :=
  try_except (add_song_body title artist genre)
    (fun e =>
       match e with
       | TypeError m | ValueError m | PlaylistError m => Some m
       | KeyError _ => None
       end).

(** ** [view_playlist] *)

(** One turn of the [for] loop: the three [+=] on [playlist_view]. *)
Definition view_step (playlist_view : str) (item : str * details) : str :=
  let '(title, det) := item in
  ((playlist_view ++ (lit "Title: " ++ title ++ nl))
     ++ (lit "Artist: " ++ artist det ++ nl))
    ++ (lit "Genre: " ++ genre det ++ nl ++ nl).

Definition view_playlist_body : M str :=
  d <- get_playlist ;;
  if Dict.is_empty d then raise (PlaylistError msg_playlist_empty)
  else ret (fold_left view_step (Dict.items d) []).

Definition view_playlist : M str :=
  try_except view_playlist_body
    (fun e => match e with PlaylistError m => Some m | _ => None end).

(** ** [update_song] *)

(** The block [if value is not None: ...] for one optional field. *)
Definition update_field (title : str) (value : pyval)
    (upd : details -> str -> details) (type_msg : str) : M unit :=
  match value with
  | PyNone => ret tt
  | PyStr value =>
      let value := strip value in
      if str_not value then ret tt else setitem_field title upd value
  | PyInt _ => raise (TypeError type_msg)
  end.

Definition update_song_body (title artist genre : pyval) : M str :=
  match title with
  | PyStr title =>
      let title := strip title in
      d <- get_playlist ;;
      if negb (Dict.contains title d) then
        raise (PlaylistError (msg_not_found title))
      else
        update_field title artist set_artist (lit "Artist must be a string") ;;
        update_field title genre set_genre (lit "Genre must be a string") ;;
        ret (msg_updated title)
  | _ => raise (TypeError (lit "Title must be a string"))
  end.

Definition update_song (title artist genre : pyval) : M str :=
  try_except (update_song_body title artist genre)
    (fun e =>
       match e with
       | TypeError m | PlaylistError m => Some m
       | _ => None
       end).

(** ** [delete_song] *)

Definition delete_song_body (title : pyval) : M str :=
  match title with
  | PyStr title =>
      let title := strip title in
      d <- get_playlist ;;
      if negb (Dict.contains title d) then
        raise (PlaylistError (msg_not_found title))
      else
        delitem title ;;
        ret (msg_deleted title)
  | _ => raise (TypeError (lit "Title must be a string"))
  end.

Definition delete_song (title : pyval) : M str :=
  try_except (delete_song_body title)
    (fun e =>
       match e with
       | TypeError m | PlaylistError m => Some m
       | _ => None
       end).

(** ** Calls on string inputs and the states they reach *)

(** An absent optional argument is [None]. *)
Definition optional (v : option str) : pyval :=
  match v with Some s => PyStr s | None => PyNone end.

Inductive call : Type :=
| Add (title artist genre : str)
| View
| Update (title : str) (artist genre : option str)
| Delete (title : str).

Definition run_call (c : call) : M str :=
  match c with
  | Add t a g => add_song (PyStr t) (PyStr a) (PyStr g)
  | View => view_playlist
  | Update t a g => update_song (PyStr t) (optional a) (optional g)
  | Delete t => delete_song (PyStr t)
  end.

(** The manager after the call. *)
Definition exec (c : call) (pm : PlaylistManager) : PlaylistManager :=
  snd (run_call c pm).

Inductive reachable : PlaylistManager -> Prop :=
| reachable_init : reachable init
| reachable_step pm c : reachable pm -> reachable (exec c pm).

(** ** The invariant of the catalog *)

Definition record_ok (kv : str * details) : Prop :=
  strip (fst kv) = fst kv
  /\ strip (fst kv) <> []
  /\ strip (artist (snd kv)) <> []
  /\ strip (genre (snd kv)) <> [].

Definition catalog_inv (pm : PlaylistManager) : Prop :=
  Dict.wf (playlist pm) /\ Forall record_ok (playlist pm).

(** ** The listing, block by block

    The text of one record in the listing: three lines and a blank one. *)
Definition block (item : str * details) : str :=
  lit "Title: " ++ fst item ++ nl
  ++ lit "Artist: " ++ artist (snd item) ++ nl
  ++ lit "Genre: " ++ genre (snd item) ++ nl
  ++ nl.

(** A string starts (or is empty) with a code point [strip] keeps. *)
Definition head_kept (s : str) : Prop :=
  match s with [] => True | c :: _ => isspace c = false end.

(** ** Sample catalogs *)

(** After [add_song("Song A", "Artist1", "Rock")] on a new manager. *)
Definition one_song : PlaylistManager :=
  exec (Add (lit "Song A") (lit "Artist1") (lit "Rock")) init.

(** After [add_song("Song B", "Artist2", "Pop")] on [one_song]. *)
Definition two_songs : PlaylistManager :=
  exec (Add (lit "Song B") (lit "Artist2") (lit "Pop")) one_song.

(** ** What [update_song] does to a record

    The block [if value is not None: ...] seen from the record: a string
    that is not empty once trimmed replaces the field, anything else
    leaves it. *)
Definition apply_field (value : pyval) (upd : details -> str -> details)
    (old : details) : details :=
  match value with
  | PyStr s => if str_not (strip s) then old else upd old (strip s)
  | _ => old
  end.

(** The argument is neither [None] nor a string. *)
Definition wrong_type (value : pyval) : bool :=
  match value with PyInt _ => true | _ => false end.

(** [isinstance(x, str)] *)
Definition is_str (value : pyval) : bool :=
  match value with PyStr _ => true | _ => false end.

(** ** The form in which records are stored *)

(** A string that is its own trimmed form and is not empty. *)
Definition trimmed (s : str) : Prop := strip s = s /\ s <> [].

Definition record_trimmed (kv : str * details) : Prop :=
  trimmed (fst kv) /\ trimmed (artist (snd kv)) /\ trimmed (genre (snd kv)).

Definition catalog_stored (pm : PlaylistManager) : Prop :=
  Dict.wf (playlist pm) /\ Forall record_trimmed (playlist pm).

(** ** The buttons of [main]

    [main] keeps the texts of its widgets in [input_buffers] and calls the
    manager when a button is pressed.  The handlers below are the
    statements run on a press, on the manager and the buffers; drawing
    and window calls are left out. *)

Module Buffers.
Record t : Type := Make {
  title : str;
  artist : str;
  genre : str;
  message : str;
  new_artist : str;
  new_genre : str;
  selected_song : str
}.

(** The buffers at start: every text empty. *)
Definition initial : t := Make [] [] [] [] [] [] [].

(** [input_buffers['message'][0] = m] *)
Definition set_message (b : t) (m : str) : t :=
  Make (title b) (artist b) (genre b) m (new_artist b) (new_genre b)
    (selected_song b).

(** The three input fields of the form set to the empty string. *)
Definition clear_inputs (b : t) : t :=
  Make [] [] [] (message b) (new_artist b) (new_genre b) (selected_song b).

(** The two fields of the context menu set to the empty string. *)
Definition clear_new (b : t) : t :=
  Make (title b) (artist b) (genre b) (message b) [] [] (selected_song b).

(** [input_buffers['selected_song'][0] = s] *)
Definition set_selected_song (b : t) (s : str) : t :=
  Make (title b) (artist b) (genre b) (message b) (new_artist b) (new_genre b) s.
End Buffers.

(** A handler ends normally or with the exception a method let through;
    it leaves a manager and buffers. *)
Definition handled : Type := outcome unit * (PlaylistManager * Buffers.t).

(** The button "Add Song": the message is what [add_song] returns on the
    three input fields, which are then emptied. *)
Definition add_song_button (pm : PlaylistManager) (b : Buffers.t) : handled :=
  match add_song (PyStr (Buffers.title b)) (PyStr (Buffers.artist b))
          (PyStr (Buffers.genre b)) pm with
  | (Done m, pm') => (Done tt, (pm', Buffers.clear_inputs (Buffers.set_message b m)))
  | (Raised e, pm') => (Raised e, (pm', b))
  end.

(** [value if value.strip() else None] *)
Definition filled_or_none (value : str) : pyval :=
  if str_not (strip value) then PyNone else PyStr value.

Definition msg_fill_one : str := lit "Error: At least one field must be filled".

(** The button "Update" of the context menu of the song [title]. *)
Definition update_button (title : str) (pm : PlaylistManager) (b : Buffers.t)
  : handled :=
  if negb (str_not (strip (Buffers.new_artist b)))
     || negb (str_not (strip (Buffers.new_genre b))) then
    match update_song (PyStr title)
            (filled_or_none (Buffers.new_artist b))
            (filled_or_none (Buffers.new_genre b)) pm with
    | (Done m, pm') => (Done tt, (pm', Buffers.clear_new (Buffers.set_message b m)))
    | (Raised e, pm') => (Raised e, (pm', b))
    end
  else (Done tt, (pm, Buffers.set_message b msg_fill_one)).

(** The loop [for title in to_delete] run after the songs are drawn. *)
Fixpoint delete_marked (to_delete : list str) (pm : PlaylistManager)
    (b : Buffers.t) : handled :=
  match to_delete with
  | [] => (Done tt, (pm, b))
  | title :: rest =>
      match delete_song (PyStr title) pm with
      | (Done m, pm') =>
          let b := Buffers.set_message b m in
          let b :=
            if str_eqb (Buffers.selected_song b) title
            then Buffers.set_selected_song b []
            else b in
          delete_marked rest pm' b
      | (Raised e, pm') => (Raised e, (pm', b))
      end
  end.

(** [title] is one of the titles of the list. *)
Definition marked (to_delete : list str) (title : str) : bool :=
  existsb (str_eqb title) to_delete.

(** ** The colour of the message

    [main] draws the message with the colour
    [(1.0, 0.0, 0.0) if "error" in message.lower() else (0.0, 1.0, 0.0)]. *)

(** The two colours: [red] is [(1.0, 0.0, 0.0)], [green] is
    [(0.0, 1.0, 0.0)]. *)
Inductive rgb : Type := red | green.

Definition is_ascii (s : str) : bool := forallb (fun c => (c <? 128)%N) s.

(** An ASCII capital letter becomes the small one. *)
Definition lower_cp (c : N) : N :=
  if ((65 <=? c) && (c <=? 90))%N then (c + 32)%N else c.

(** [s.lower()] for a string of ASCII code points; [None] for the other
    strings, which Python lowers by the Unicode tables. *)
Definition lower (s : str) : option str :=
  if is_ascii s then Some (map lower_cp s) else None.

(** [s.startswith(p)] *)
Fixpoint startswith (s p : str) : bool :=
  match p, s with
  | [], _ => true
  | _ :: _, [] => false
  | a :: p', b :: s' => N.eqb a b && startswith s' p'
  end.

(** [p in s]: [p] is found at some position of [s]. *)
Fixpoint occurs (p s : str) : bool :=
  startswith s p || match s with [] => false | _ :: s' => occurs p s' end.

Definition color (message : str) : option rgb :=
  match lower message with
  | Some m => Some (if occurs (lit "error") m then red else green)
  | None => None
  end.

(** * Properties *)

(** ** Strings *)

Lemma str_eqb_eq (a b : str) : str_eqb a b = true <-> a = b.
Proof.
  revert b; induction a as [|x a IH]; intros [|y b]; simpl;
    try (split; [discriminate | intros E; discriminate E]);
    try (split; reflexivity).
  rewrite andb_true_iff, N.eqb_eq, IH.
  split; [intros [-> ->]; reflexivity | intros E; inversion E; auto].
Qed.

Lemma str_eqb_refl (a : str) : str_eqb a a = true.
Proof. apply str_eqb_eq; reflexivity. Qed.

Lemma str_eqb_neq (a b : str) : str_eqb a b = false <-> a <> b.
Proof.
  rewrite <- str_eqb_eq. destruct (str_eqb a b); split; congruence.
Qed.

Lemma str_eqb_spec (a b : str) : reflect (a = b) (str_eqb a b).
Proof. apply iff_reflect; symmetry; apply str_eqb_eq. Qed.

Lemma str_not_false (s : str) : str_not s = false <-> s <> [].
Proof. destruct s; simpl; split; congruence. Qed.

Lemma str_not_true (s : str) : str_not s = true <-> s = [].
Proof. destruct s; simpl; split; congruence. Qed.

(** ** [strip] *)

Section Strip.

Let blank (w : str) : Prop := Forall (fun c => isspace c = true) w.

Lemma lstrip_head_kept s : head_kept (lstrip s).
Proof.
  induction s as [|c s IH]; simpl; [exact I|].
  destruct (isspace c) eqn:E; [exact IH | exact E].
Qed.

Lemma lstrip_fixed s : head_kept s -> lstrip s = s.
Proof. destruct s as [|c s]; simpl; [reflexivity | intros ->; reflexivity]. Qed.

Lemma lstrip_split s : exists w, s = w ++ lstrip s /\ blank w.
Proof.
  induction s as [|c s (w & Hs & Hw)]; simpl.
  - exists []; split; [reflexivity | constructor].
  - destruct (isspace c) eqn:E.
    + exists (c :: w); split; [simpl; congruence | constructor; assumption].
    + exists []; split; [reflexivity | constructor].
Qed.

Lemma rstrip_split s : exists w, s = rstrip s ++ w /\ blank w.
Proof.
  destruct (lstrip_split (rev s)) as (w & Hs & Hw).
  exists (rev w); split.
  - unfold rstrip. rewrite <- rev_app_distr, <- Hs, rev_involutive. reflexivity.
  - apply Forall_rev; assumption.
Qed.

Lemma rstrip_head_kept s : head_kept s -> head_kept (rstrip s).
Proof.
  intros H. destruct (rstrip_split s) as (w & Hs & Hw).
  destruct (rstrip s) as [|c r]; [exact I|].
  rewrite Hs in H. exact H.
Qed.

Lemma rstrip_fixed s : head_kept (rev s) -> rstrip s = s.
Proof.
  intros H. unfold rstrip. rewrite (lstrip_fixed _ H). apply rev_involutive.
Qed.

Lemma rstrip_last_kept s : head_kept (rev (rstrip s)).
Proof. unfold rstrip. rewrite rev_involutive. apply lstrip_head_kept. Qed.

Lemma strip_head_kept s : head_kept (strip s).
Proof. apply rstrip_head_kept, lstrip_head_kept. Qed.

Lemma strip_last_kept s : head_kept (rev (strip s)).
Proof. apply rstrip_last_kept. Qed.

Lemma strip_fixed s : head_kept s -> head_kept (rev s) -> strip s = s.
Proof.
  intros H1 H2. unfold strip. rewrite (lstrip_fixed _ H1). apply rstrip_fixed, H2.
Qed.

Lemma strip_idempotent s : strip (strip s) = strip s.
Proof. apply strip_fixed; [apply strip_head_kept | apply strip_last_kept]. Qed.

End Strip.

(** ** Dictionaries *)

Section DictFacts.

Context {V : Type}.
Implicit Types (d : Dict.t V) (k : str) (v : V).

Lemma contains_In k d : Dict.contains k d = true <-> In k (Dict.keys d).
Proof.
  induction d as [|[k' v'] d IH]; simpl.
  - split; [discriminate | tauto].
  - destruct (str_eqb_spec k k') as [->|N].
    + split; auto.
    + rewrite IH. split; [auto | intros [E|H]; congruence].
Qed.

Lemma contains_false_In k d : Dict.contains k d = false <-> ~ In k (Dict.keys d).
Proof.
  rewrite <- contains_In. destruct (Dict.contains k d); split; congruence.
Qed.

Lemma contains_get k d :
  Dict.contains k d = true <-> exists v, Dict.get k d = Some v.
Proof.
  induction d as [|[k' v'] d IH]; simpl.
  - split; [discriminate | intros [v H]; discriminate].
  - destruct (str_eqb k k'); [|exact IH].
    split; [eauto | reflexivity].
Qed.

Lemma get_absent k d : Dict.contains k d = false -> Dict.get k d = None.
Proof.
  intros H. destruct (Dict.get k d) eqn:E; [|reflexivity].
  assert (Dict.contains k d = true) by (apply contains_get; eauto). congruence.
Qed.

(** Assigning to an absent key appends the entry. *)
Lemma set_absent k v d :
  Dict.contains k d = false -> Dict.set k v d = d ++ [(k, v)].
Proof.
  induction d as [|[k' v'] d IH]; simpl; [reflexivity|].
  destruct (str_eqb k k'); [discriminate|].
  intros H. rewrite (IH H). reflexivity.
Qed.

(** Assigning to a present key keeps the keys and their order. *)
Lemma set_present_keys k v d :
  Dict.contains k d = true -> Dict.keys (Dict.set k v d) = Dict.keys d.
Proof.
  induction d as [|[k' v'] d IH]; simpl; [discriminate|].
  destruct (str_eqb k k'); simpl; [reflexivity|].
  intros H. rewrite (IH H). reflexivity.
Qed.

Lemma get_set_same k v d : Dict.get k (Dict.set k v d) = Some v.
Proof.
  induction d as [|[k' v'] d IH]; simpl.
  - rewrite str_eqb_refl. reflexivity.
  - destruct (str_eqb k k') eqn:E; simpl; rewrite E; [reflexivity | exact IH].
Qed.

Lemma get_set_other k k' v d :
  k' <> k -> Dict.get k' (Dict.set k v d) = Dict.get k' d.
Proof.
  intros N. induction d as [|[k0 v0] d IH]; simpl.
  - apply str_eqb_neq in N. rewrite N. reflexivity.
  - destruct (str_eqb_spec k k0) as [<-|N0]; simpl.
    + apply str_eqb_neq in N. rewrite N. reflexivity.
    + rewrite IH. reflexivity.
Qed.

(** Assigning to a present key changes the values of that key only. *)
Lemma set_present_Forall (P : str * V -> Prop) k v d :
  Forall P d -> (forall k', k' = k -> P (k', v)) -> Forall P (Dict.set k v d).
Proof.
  intros Hd Hv. induction Hd as [|[k0 v0] d H0 Hd IH]; simpl.
  - constructor; [apply Hv; reflexivity | constructor].
  - destruct (str_eqb_spec k k0) as [->|N]; constructor; auto.
Qed.

Lemma get_del_other k k' d :
  k' <> k -> Dict.get k' (Dict.del k d) = Dict.get k' d.
Proof.
  intros N. induction d as [|[k0 v0] d IH]; simpl; [reflexivity|].
  destruct (str_eqb_spec k k0) as [->|N0]; simpl.
  - apply str_eqb_neq in N. rewrite N. reflexivity.
  - rewrite IH. reflexivity.
Qed.

(** Deleting a present key takes its one entry out and leaves the rest
    in place. *)
Lemma del_split k d :
  Dict.wf d -> Dict.contains k d = true ->
  exists d1 v d2,
    d = d1 ++ (k, v) :: d2 /\ Dict.del k d = d1 ++ d2
    /\ Dict.contains k (d1 ++ d2) = false.
Proof.
  unfold Dict.wf. induction d as [|[k0 v0] d IH]; simpl; [discriminate|].
  intros W H. inversion W as [|? ? Hn Wd]; subst.
  destruct (str_eqb_spec k k0) as [->|N].
  - exists [], v0, d. repeat split. simpl. apply contains_false_In, Hn.
  - destruct (IH Wd H) as (d1 & v & d2 & E & D & C).
    exists ((k0, v0) :: d1), v, d2. simpl. rewrite D, <- E.
    repeat split. apply str_eqb_neq in N. rewrite N. exact C.
Qed.

Lemma del_keys_incl k d x : In x (Dict.keys (Dict.del k d)) -> In x (Dict.keys d).
Proof.
  induction d as [|[k0 v0] d IH]; simpl; [tauto|].
  destruct (str_eqb k k0); simpl; tauto.
Qed.

Lemma del_wf k d : Dict.wf d -> Dict.wf (Dict.del k d).
Proof.
  unfold Dict.wf. induction d as [|[k0 v0] d IH]; simpl; [auto|].
  intros W. inversion W as [|? ? Hn Wd]; subst.
  destruct (str_eqb k k0); simpl; [assumption|].
  constructor; [|auto]. intros H. apply Hn. eapply del_keys_incl, H.
Qed.

Lemma del_Forall (P : str * V -> Prop) k d : Forall P d -> Forall P (Dict.del k d).
Proof.
  induction 1 as [|[k0 v0] d H0 Hd IH]; simpl; [constructor|].
  destruct (str_eqb k k0); [assumption | constructor; assumption].
Qed.

Lemma append_wf k v d :
  Dict.wf d -> Dict.contains k d = false -> Dict.wf (d ++ [(k, v)]).
Proof.
  unfold Dict.wf, Dict.keys. intros W H. rewrite map_app. simpl.
  apply contains_false_In in H.
  apply NoDup_app; [assumption | repeat constructor; simpl; tauto |].
  intros x Hx [<-|[]]. exact (H Hx).
Qed.

End DictFacts.

(** ** [add_song] *)

Ltac run_method :=
  unfold add_song, update_song, delete_song, view_playlist, try_except,
    add_song_body, update_song_body, delete_song_body, view_playlist_body,
    update_field, setitem_field, delitem,
    bind, ret, raise, get_playlist, put_playlist; cbn.

(** [add_song] on three strings, case by case. *)
Lemma add_song_run pm t a g :
  add_song (PyStr t) (PyStr a) (PyStr g) pm =
    if str_not (strip t) || str_not (strip a) || str_not (strip g) then
      (Done msg_empty_field, pm)
    else if Dict.contains (strip t) (playlist pm) then
      (Done (msg_exists (strip t)), pm)
    else
      (Done (msg_added (strip t)),
       {| playlist :=
            Dict.set (strip t) {| artist := strip a; genre := strip g |}
              (playlist pm) |}).
Proof.
  run_method.
  destruct (str_not (strip t) || str_not (strip a) || str_not (strip g));
    [reflexivity|].
  destruct (Dict.contains (strip t) (playlist pm)); reflexivity.
Qed.

Lemma all_filled t a g :
  strip t <> [] -> strip a <> [] -> strip g <> [] ->
  str_not (strip t) || str_not (strip a) || str_not (strip g) = false.
Proof.
  intros Ht Ha Hg. apply str_not_false in Ht, Ha, Hg.
  rewrite Ht, Ha, Hg. reflexivity.
Qed.

Lemma some_empty t a g :
  strip t = [] \/ strip a = [] \/ strip g = [] ->
  str_not (strip t) || str_not (strip a) || str_not (strip g) = true.
Proof. rewrite !orb_true_iff, !str_not_true. tauto. Qed.

(** C1: on strings that are all non-empty once trimmed, with a trimmed
    title that is not yet a key, [add_song] answers
    "Song '<title>' added successfully!" and the catalog afterwards is the
    former one followed by the one new entry, the trimmed artist and genre
    under the trimmed title; the entries that were there are unchanged. *)
Theorem add_song_adds pm t a g :
  strip t <> [] -> strip a <> [] -> strip g <> [] ->
  Dict.contains (strip t) (playlist pm) = false ->
  let entry := (strip t, {| artist := strip a; genre := strip g |}) in
  let pm' := {| playlist := playlist pm ++ [entry] |} in
  add_song (PyStr t) (PyStr a) (PyStr g) pm = (Done (msg_added (strip t)), pm')
  /\ Dict.get (strip t) (playlist pm') = Some (snd entry)
  /\ (forall k, k <> strip t ->
        Dict.get k (playlist pm') = Dict.get k (playlist pm)).
Proof.
  intros Ht Ha Hg Hk entry pm'. subst entry pm'. cbn [playlist snd].
  rewrite <- (set_absent _ _ _ Hk).
  split; [rewrite add_song_run, all_filled, Hk by assumption; reflexivity|].
  split.
  - apply get_set_same.
  - intros k N. apply get_set_other, N.
Qed.

Lemma add_song_adds_witness :
  add_song (PyStr (lit "Song A")) (PyStr (lit " Artist1 ")) (PyStr (lit "Rock")) init
  = (Done (lit "Song 'Song A' added successfully!"),
     {| playlist := [(lit "Song A", Details (lit "Artist1") (lit "Rock"))] |}).
Proof.
  refine (proj1 (add_song_adds init (lit "Song A") (lit " Artist1 ") (lit "Rock")
                   _ _ _ _));
    vm_compute; congruence.
Defined.

(** C4: on strings of which at least one is empty once trimmed,
    [add_song] answers "Title, artist, and genre cannot be empty" and
    leaves the catalog as it was. *)
Theorem add_song_empty_field pm t a g :
  strip t = [] \/ strip a = [] \/ strip g = [] ->
  add_song (PyStr t) (PyStr a) (PyStr g) pm = (Done msg_empty_field, pm).
Proof.
  intros H. rewrite add_song_run, some_empty by assumption. reflexivity.
Qed.

Lemma add_song_empty_field_witness :
  add_song (PyStr (lit "Song A")) (PyStr (lit "   ")) (PyStr (lit "Rock")) init
  = (Done (lit "Title, artist, and genre cannot be empty"), init).
Proof.
  refine (add_song_empty_field init (lit "Song A") (lit "   ") (lit "Rock") _).
  right; left. vm_compute. reflexivity.
Defined.

(** C3, as stated, fails: the title "Song A" is a key, the artist is
    empty, and the answer is the message of the empty field, not
    "Song 'Song A' already exists!". *)
Lemma add_song_duplicate_empty_artist :
  Dict.contains (strip (lit "Song A")) (playlist one_song) = true
  /\ add_song (PyStr (lit "Song A")) (PyStr []) (PyStr (lit "Pop")) one_song
     = (Done msg_empty_field, one_song)
  /\ add_song (PyStr (lit "Song A")) (PyStr []) (PyStr (lit "Pop")) one_song
     <> (Done (msg_exists (strip (lit "Song A"))), one_song).
Proof. vm_compute. repeat split; congruence. Qed.

(** C3, amended: on strings that are all non-empty once trimmed, with a
    trimmed title that is already a key, [add_song] answers
    "Song '<title>' already exists!" whatever the artist and genre are,
    and leaves the catalog as it was. *)
Theorem add_song_duplicate pm t a g :
  strip t <> [] -> strip a <> [] -> strip g <> [] ->
  Dict.contains (strip t) (playlist pm) = true ->
  add_song (PyStr t) (PyStr a) (PyStr g) pm = (Done (msg_exists (strip t)), pm).
Proof.
  intros Ht Ha Hg Hk.
  rewrite add_song_run, all_filled, Hk by assumption. reflexivity.
Qed.

Lemma add_song_duplicate_witness :
  add_song (PyStr (lit " Song A")) (PyStr (lit "Artist2")) (PyStr (lit "Pop")) one_song
  = (Done (lit "Song 'Song A' already exists!"), one_song).
Proof.
  refine (add_song_duplicate one_song (lit " Song A") (lit "Artist2") (lit "Pop")
            _ _ _ _);
    vm_compute; congruence.
Defined.

(** ** [view_playlist] *)

Lemma fold_left_view_step d acc :
  fold_left view_step d acc = acc ++ List.concat (map block d).
Proof.
  revert acc. induction d as [|[title det] d IH]; intros acc; cbn.
  - symmetry. apply app_nil_r.
  - rewrite IH. unfold block. cbn. rewrite <- !app_assoc. reflexivity.
Qed.

Lemma view_playlist_run pm :
  view_playlist pm =
    (Done (if Dict.is_empty (playlist pm) then msg_playlist_empty
           else List.concat (map block (playlist pm))), pm).
Proof.
  unfold view_playlist, try_except, view_playlist_body, bind, get_playlist,
    raise, ret, Dict.items.
  rewrite fold_left_view_step.
  destruct (playlist pm) as [|kv d]; reflexivity.
Qed.

(** C5: [view_playlist] answers "Playlist is empty" on the empty catalog
    and, on any other, the blocks of its records one after the other in
    the order of the catalog, each block being the title, artist and
    genre lines followed by a blank line; the catalog stays as it was. *)
Theorem view_playlist_listing pm :
  view_playlist pm =
    (Done (match playlist pm with
           | [] => lit "Playlist is empty"
           | _ :: _ => List.concat (map block (playlist pm))
           end), pm)
  /\ (forall title det,
        block (title, det) =
          (lit "Title: " ++ title ++ nl)
          ++ (lit "Artist: " ++ artist det ++ nl)
          ++ (lit "Genre: " ++ genre det ++ nl)
          ++ nl).
Proof.
  split.
  - rewrite view_playlist_run. destruct (playlist pm); reflexivity.
  - intros title det. unfold block. cbn. rewrite <- !app_assoc. reflexivity.
Qed.

(** C9: on a catalog that is not empty, the listing ends with the genre
    line of the last record and then a second newline. *)
Theorem view_playlist_trailing_blank_line pm :
  playlist pm <> [] ->
  exists d final prefix,
    playlist pm = d ++ [final]
    /\ view_playlist pm =
         (Done (prefix ++ lit "Genre: " ++ genre (snd final) ++ nl ++ nl), pm).
Proof.
  intros H. destruct (exists_last H) as (d & final & E).
  exists d, final,
    (List.concat (map block d) ++ lit "Title: " ++ fst final ++ nl
       ++ lit "Artist: " ++ artist (snd final) ++ nl).
  split; [exact E|].
  rewrite view_playlist_run, E.
  assert (N : Dict.is_empty (d ++ [final]) = false) by (destruct d; reflexivity).
  rewrite N, map_app, List.concat_app. cbn. unfold block.
  rewrite app_nil_r, <- !app_assoc. reflexivity.
Qed.

Lemma view_playlist_trailing_blank_line_witness :
  exists d final prefix,
    playlist two_songs = d ++ [final]
    /\ view_playlist two_songs =
         (Done (prefix ++ lit "Genre: " ++ genre (snd final) ++ nl ++ nl), two_songs).
Proof.
  refine (view_playlist_trailing_blank_line two_songs _).
  vm_compute. congruence.
Defined.

(** ** [update_song] *)

Lemma get_contains (d : Dict.t details) k v :
  Dict.get k d = Some v -> Dict.contains k d = true.
Proof. intros H. apply contains_get. eauto. Qed.

(** One optional field of [update_song], for a title that is a key. *)
Lemma update_field_run title v upd type_msg pm old :
  Dict.get title (playlist pm) = Some old ->
  exists pm',
    update_field title (optional v) upd type_msg pm = (Done tt, pm')
    /\ Dict.keys (playlist pm') = Dict.keys (playlist pm)
    /\ Dict.get title (playlist pm') =
         Some (match v with
               | Some s => if str_not (strip s) then old else upd old (strip s)
               | None => old
               end)
    /\ (forall k, k <> title ->
          Dict.get k (playlist pm') = Dict.get k (playlist pm)).
Proof.
  intros H. destruct v as [s|]; cbn [optional update_field].
  - destruct (str_not (strip s)).
    + exists pm. unfold ret. auto.
    + unfold setitem_field, bind, get_playlist, put_playlist. rewrite H.
      eexists; split; [reflexivity|]. cbn [playlist].
      split; [apply set_present_keys, (get_contains _ _ _ H)|].
      split; [apply get_set_same|].
      intros k N. apply get_set_other, N.
  - exists pm. unfold ret. auto.
Qed.

Lemma update_song_not_found_run pm t a g :
  Dict.contains (strip t) (playlist pm) = false ->
  update_song (PyStr t) a g pm = (Done (msg_not_found (strip t)), pm).
Proof.
  intros H. unfold update_song, try_except, update_song_body, bind, get_playlist.
  rewrite H. reflexivity.
Qed.

(** C7: when the trimmed title is not a key, [update_song] answers
    "Song '<title>' not found in playlist!" and leaves the catalog as it
    was, whatever is given for the artist and the genre. *)
Theorem update_song_not_found pm t a g :
  Dict.contains (strip t) (playlist pm) = false ->
  update_song (PyStr t) (optional a) (optional g) pm
  = (Done (msg_not_found (strip t)), pm).
Proof.
  intros H. apply update_song_not_found_run, H.
Qed.

Lemma update_song_not_found_witness :
  update_song (PyStr (lit "Song B")) (optional (Some (lit "Artist2"))) (optional None)
    one_song
  = (Done (lit "Song 'Song B' not found in playlist!"), one_song).
Proof.
  refine (update_song_not_found one_song (lit "Song B") (Some (lit "Artist2")) None _).
  vm_compute. reflexivity.
Defined.

(** C6: when the trimmed title is a key, [update_song] answers
    "Song '<title>' updated successfully!"; in the record of that title
    the artist becomes the trimmed value given when one is given and is
    not empty once trimmed, and stays what it was when none is given or
    the one given is empty once trimmed, and the same holds, on its own,
    for the genre; the keys and their order stay the same and so does the
    record of every other key. *)
Theorem update_song_found pm t a g :
  Dict.contains (strip t) (playlist pm) = true ->
  exists old new pm',
    Dict.get (strip t) (playlist pm) = Some old
    /\ update_song (PyStr t) (optional a) (optional g) pm
       = (Done (msg_updated (strip t)), pm')
    /\ Dict.get (strip t) (playlist pm') = Some new
    /\ (forall s, a = Some s -> strip s <> [] -> artist new = strip s)
    /\ (a = None \/ (exists s, a = Some s /\ strip s = []) ->
        artist new = artist old)
    /\ (forall s, g = Some s -> strip s <> [] -> genre new = strip s)
    /\ (g = None \/ (exists s, g = Some s /\ strip s = []) ->
        genre new = genre old)
    /\ Dict.keys (playlist pm') = Dict.keys (playlist pm)
    /\ (forall k, k <> strip t ->
          Dict.get k (playlist pm') = Dict.get k (playlist pm)).
Proof.
  intros H. destruct (proj1 (contains_get _ _) H) as [old Hold].
  destruct (update_field_run (strip t) a set_artist (lit "Artist must be a string")
              pm _ Hold) as (pm1 & R1 & K1 & G1 & O1).
  destruct (update_field_run (strip t) g set_genre (lit "Genre must be a string")
              pm1 _ G1) as (pm2 & R2 & K2 & G2 & O2).
  eexists old, _, pm2. split; [exact Hold|].
  split.
  { unfold update_song, try_except, update_song_body, bind at 1, get_playlist.
    rewrite H. cbn [negb]. unfold bind. rewrite R1, R2. reflexivity. }
  split; [exact G2|].
  repeat split.
  - intros s -> Hs. apply str_not_false in Hs. rewrite Hs.
    destruct g as [s'|]; [destruct (str_not (strip s'))|]; reflexivity.
  - intros [->|(s & -> & Hs)].
    + destruct g as [s'|]; [destruct (str_not (strip s'))|]; reflexivity.
    + apply str_not_true in Hs. rewrite Hs.
      destruct g as [s'|]; [destruct (str_not (strip s'))|]; reflexivity.
  - intros s -> Hs. apply str_not_false in Hs. rewrite Hs. reflexivity.
  - intros [->|(s & -> & Hs)]; [|apply str_not_true in Hs; rewrite Hs];
      destruct a as [s'|]; try destruct (str_not (strip s')); reflexivity.
  - congruence.
  - intros k N. rewrite (O2 k N). apply O1, N.
Qed.

Lemma update_song_found_witness :
  exists old new pm',
    Dict.get (strip (lit "Song A ")) (playlist two_songs) = Some old
    /\ update_song (PyStr (lit "Song A ")) (optional (Some (lit " Artist3")))
         (optional (Some (lit "  "))) two_songs
       = (Done (msg_updated (strip (lit "Song A "))), pm')
    /\ Dict.get (strip (lit "Song A ")) (playlist pm') = Some new
    /\ (forall s, Some (lit " Artist3") = Some s -> strip s <> [] ->
        artist new = strip s)
    /\ (Some (lit " Artist3") = None
        \/ (exists s, Some (lit " Artist3") = Some s /\ strip s = []) ->
        artist new = artist old)
    /\ (forall s, Some (lit "  ") = Some s -> strip s <> [] -> genre new = strip s)
    /\ (Some (lit "  ") = None
        \/ (exists s, Some (lit "  ") = Some s /\ strip s = []) ->
        genre new = genre old)
    /\ Dict.keys (playlist pm') = Dict.keys (playlist two_songs)
    /\ (forall k, k <> strip (lit "Song A ") ->
          Dict.get k (playlist pm') = Dict.get k (playlist two_songs)).
Proof.
  refine (update_song_found two_songs (lit "Song A ") (Some (lit " Artist3"))
            (Some (lit "  ")) _).
  vm_compute. reflexivity.
Defined.

(** ** [delete_song] *)

Lemma delete_song_run pm t :
  delete_song (PyStr t) pm =
    if Dict.contains (strip t) (playlist pm)
    then (Done (msg_deleted (strip t)),
          {| playlist := Dict.del (strip t) (playlist pm) |})
    else (Done (msg_not_found (strip t)), pm).
Proof.
  unfold delete_song, try_except, delete_song_body, delitem, bind, get_playlist,
    put_playlist, ret, raise.
  destruct (Dict.contains (strip t) (playlist pm)) eqn:E; cbn [negb];
    [rewrite E|]; reflexivity.
Qed.

(** C8: on a catalog, each key held once: when the trimmed title is a
    key, [delete_song] takes out the one entry of that title, leaves the
    others as they were and in place, and answers
    "Song '<title>' deleted successfully!", and the same call made again
    right after answers "Song '<title>' not found in playlist!"; when the
    trimmed title is not a key, it answers that same message and leaves
    the catalog as it was. *)
Theorem delete_song_removes pm t :
  Dict.wf (playlist pm) ->
  (Dict.contains (strip t) (playlist pm) = true ->
   exists d1 v d2,
     playlist pm = d1 ++ (strip t, v) :: d2
     /\ delete_song (PyStr t) pm
        = (Done (msg_deleted (strip t)), {| playlist := d1 ++ d2 |})
     /\ delete_song (PyStr t) {| playlist := d1 ++ d2 |}
        = (Done (msg_not_found (strip t)), {| playlist := d1 ++ d2 |}))
  /\ (Dict.contains (strip t) (playlist pm) = false ->
      delete_song (PyStr t) pm = (Done (msg_not_found (strip t)), pm)).
Proof.
  intros W. split; intros H.
  - destruct (del_split _ _ W H) as (d1 & v & d2 & E & D & C).
    exists d1, v, d2. split; [exact E|].
    rewrite !delete_song_run, H, D. cbn [playlist]. rewrite C. auto.
  - rewrite delete_song_run, H. reflexivity.
Qed.

Lemma two_songs_wf : Dict.wf (playlist two_songs).
Proof.
  vm_compute. repeat constructor; cbn; intuition discriminate.
Qed.

Lemma delete_song_removes_witness :
  exists d1 v d2,
    playlist two_songs = d1 ++ (strip (lit " Song A "), v) :: d2
    /\ delete_song (PyStr (lit " Song A ")) two_songs
       = (Done (msg_deleted (strip (lit " Song A "))), {| playlist := d1 ++ d2 |})
    /\ delete_song (PyStr (lit " Song A ")) {| playlist := d1 ++ d2 |}
       = (Done (msg_not_found (strip (lit " Song A "))), {| playlist := d1 ++ d2 |}).
Proof.
  refine (proj1 (delete_song_removes two_songs (lit " Song A ") two_songs_wf) _).
  vm_compute. reflexivity.
Defined.

(** ** Deleting a song and adding it again *)

(** C10: on a catalog, each key held once, that has the trimmed title as
    a key, [delete_song] of the title followed by [add_song] of the same
    title with an artist and a genre (all three non-empty once trimmed)
    both succeed, and the entry of the title is then the last one of the
    catalog, wherever it was before, the other entries keeping their
    order; its block is the last one of the listing. *)
Theorem delete_then_add_moves_last pm t a g :
  Dict.wf (playlist pm) ->
  Dict.contains (strip t) (playlist pm) = true ->
  strip t <> [] -> strip a <> [] -> strip g <> [] ->
  let entry := (strip t, {| artist := strip a; genre := strip g |}) in
  exists d1 v d2 pm1 pm2,
    playlist pm = d1 ++ (strip t, v) :: d2
    /\ delete_song (PyStr t) pm = (Done (msg_deleted (strip t)), pm1)
    /\ add_song (PyStr t) (PyStr a) (PyStr g) pm1 = (Done (msg_added (strip t)), pm2)
    /\ playlist pm2 = (d1 ++ d2) ++ [entry]
    /\ view_playlist pm2
       = (Done (List.concat (map block (d1 ++ d2)) ++ block entry), pm2).
Proof.
  intros W H Ht Ha Hg entry.
  destruct (del_split _ _ W H) as (d1 & v & d2 & E & D & C).
  exists d1, v, d2, {| playlist := d1 ++ d2 |},
    {| playlist := (d1 ++ d2) ++ [entry] |}.
  split; [exact E|].
  split; [rewrite delete_song_run, H, D; reflexivity|].
  split.
  { rewrite add_song_run, all_filled by assumption. cbn [playlist].
    rewrite C, (set_absent _ _ _ C). reflexivity. }
  split; [reflexivity|].
  rewrite view_playlist_run. cbn [playlist].
  assert (N : Dict.is_empty ((d1 ++ d2) ++ [entry]) = false)
    by (destruct (d1 ++ d2); reflexivity).
  rewrite N, map_app, List.concat_app. cbn [map List.concat].
  rewrite app_nil_r. reflexivity.
Qed.

Lemma delete_then_add_moves_last_witness :
  exists d1 v d2 pm1 pm2,
    playlist two_songs = d1 ++ (strip (lit "Song A"), v) :: d2
    /\ delete_song (PyStr (lit "Song A")) two_songs
       = (Done (msg_deleted (strip (lit "Song A"))), pm1)
    /\ add_song (PyStr (lit "Song A")) (PyStr (lit "Artist1")) (PyStr (lit "Rock")) pm1
       = (Done (msg_added (strip (lit "Song A"))), pm2)
    /\ playlist pm2
       = (d1 ++ d2)
         ++ [(strip (lit "Song A"),
              {| artist := strip (lit "Artist1"); genre := strip (lit "Rock") |})]
    /\ view_playlist pm2
       = (Done (List.concat (map block (d1 ++ d2))
                ++ block (strip (lit "Song A"),
                          {| artist := strip (lit "Artist1");
                             genre := strip (lit "Rock") |})), pm2).
Proof.
  refine (delete_then_add_moves_last two_songs (lit "Song A") (lit "Artist1")
            (lit "Rock") two_songs_wf _ _ _ _);
    vm_compute; congruence.
Defined.

(** ** The invariant *)

Lemma get_In (d : Dict.t details) k v : Dict.get k d = Some v -> In (k, v) d.
Proof.
  induction d as [|[k0 v0] d IH]; cbn; [discriminate|].
  destruct (str_eqb_spec k k0) as [->|N].
  - intros [= ->]. left; reflexivity.
  - intros H. right. exact (IH H).
Qed.

Lemma record_ok_new t a g :
  strip t <> [] -> strip a <> [] -> strip g <> [] ->
  record_ok (strip t, {| artist := strip a; genre := strip g |}).
Proof.
  intros Ht Ha Hg. unfold record_ok. cbn [fst snd artist genre].
  rewrite !strip_idempotent. auto.
Qed.

Lemma record_ok_set_artist title det s :
  strip s <> [] -> record_ok (title, det) ->
  record_ok (title, set_artist det (strip s)).
Proof.
  unfold record_ok. cbn [fst snd artist genre set_artist].
  rewrite strip_idempotent. tauto.
Qed.

Lemma record_ok_set_genre title det s :
  strip s <> [] -> record_ok (title, det) ->
  record_ok (title, set_genre det (strip s)).
Proof.
  unfold record_ok. cbn [fst snd artist genre set_genre].
  rewrite strip_idempotent. tauto.
Qed.

Lemma init_inv : catalog_inv init.
Proof. split; constructor. Qed.

Lemma add_song_inv pm t a g :
  catalog_inv pm -> catalog_inv (snd (add_song (PyStr t) (PyStr a) (PyStr g) pm)).
Proof.
  intros [W F]. rewrite add_song_run.
  destruct (str_not (strip t)) eqn:Et; [split; assumption|].
  destruct (str_not (strip a)) eqn:Ea; [split; assumption|].
  destruct (str_not (strip g)) eqn:Eg; [split; assumption|].
  apply str_not_false in Et, Ea, Eg. cbn [orb].
  destruct (Dict.contains (strip t) (playlist pm)) eqn:Ek; [split; assumption|].
  rewrite (set_absent _ _ _ Ek). split; cbn [snd playlist].
  - apply append_wf; assumption.
  - apply Forall_app. split; [assumption|].
    constructor; [apply record_ok_new; assumption | constructor].
Qed.

Lemma update_field_inv title v upd type_msg pm :
  (forall det s, strip s <> [] -> record_ok (title, det) ->
                 record_ok (title, upd det (strip s))) ->
  catalog_inv pm ->
  catalog_inv (snd (update_field title (optional v) upd type_msg pm)).
Proof.
  intros Hupd [W F]. destruct v as [s|]; cbn [optional update_field];
    [|split; assumption].
  destruct (str_not (strip s)) eqn:Es; [split; assumption|].
  apply str_not_false in Es.
  unfold setitem_field, bind, get_playlist, put_playlist, raise.
  destruct (Dict.get title (playlist pm)) as [det|] eqn:G; [|split; assumption].
  cbn [snd]. split; cbn [playlist].
  - unfold Dict.wf. rewrite set_present_keys by (apply (get_contains _ _ _ G)).
    exact W.
  - apply set_present_Forall; [assumption|]. intros k' ->.
    apply Hupd; [assumption|].
    exact (proj1 (Forall_forall _ _) F _ (get_In _ _ _ G)).
Qed.

Lemma update_song_inv pm t a g :
  catalog_inv pm ->
  catalog_inv (snd (update_song (PyStr t) (optional a) (optional g) pm)).
Proof.
  intros I.
  destruct (Dict.contains (strip t) (playlist pm)) eqn:Ek;
    [|rewrite update_song_not_found_run by assumption; exact I].
  destruct (proj1 (contains_get _ _) Ek) as [old Hold].
  pose proof (update_field_inv (strip t) a set_artist
                (lit "Artist must be a string") pm (record_ok_set_artist (strip t)) I)
    as I1.
  destruct (update_field_run (strip t) a set_artist
              (lit "Artist must be a string") pm _ Hold) as (pm1 & R1 & _ & G1 & _).
  rewrite R1 in I1. cbn [snd] in I1.
  pose proof (update_field_inv (strip t) g set_genre
                (lit "Genre must be a string") pm1 (record_ok_set_genre (strip t)) I1)
    as I2.
  destruct (update_field_run (strip t) g set_genre
              (lit "Genre must be a string") pm1 _ G1) as (pm2 & R2 & _).
  rewrite R2 in I2. cbn [snd] in I2.
  unfold update_song, try_except, update_song_body, bind at 1, get_playlist.
  rewrite Ek. cbn [negb]. unfold bind. rewrite R1, R2. exact I2.
Qed.

Lemma delete_song_inv pm t :
  catalog_inv pm -> catalog_inv (snd (delete_song (PyStr t) pm)).
Proof.
  intros [W F]. rewrite delete_song_run.
  destruct (Dict.contains (strip t) (playlist pm)); [|split; assumption].
  split; cbn [snd playlist]; [apply del_wf | apply del_Forall]; assumption.
Qed.

Lemma exec_inv c pm : catalog_inv pm -> catalog_inv (exec c pm).
Proof.
  intros I. destruct c as [t a g| |t a g|t]; unfold exec; cbn [run_call].
  - apply add_song_inv, I.
  - rewrite view_playlist_run. exact I.
  - apply update_song_inv, I.
  - apply delete_song_inv, I.
Qed.

(** C2: in every catalog reached from the empty one by calls of the four
    methods on strings, each key is held once and is its own trimmed
    form, and the title, artist and genre of each record are non-empty
    once trimmed; and each of the four methods, called on a catalog of
    which this holds, leaves one of which it holds. *)
Theorem catalog_invariant pm :
  (reachable pm -> catalog_inv pm)
  /\ (catalog_inv pm -> forall c, catalog_inv (exec c pm)).
Proof.
  split.
  - induction 1 as [|pm c R IH]; [exact init_inv | apply exec_inv, IH].
  - intros I c. apply exec_inv, I.
Qed.

Lemma two_songs_reachable : reachable two_songs.
Proof. unfold two_songs, one_song. do 2 apply reachable_step. apply reachable_init. Qed.

Lemma catalog_invariant_witness :
  catalog_inv two_songs /\ forall c, catalog_inv (exec c two_songs).
Proof.
  refine (let H := catalog_invariant two_songs in
          conj (proj1 H two_songs_reachable)
               (proj2 H (proj1 H two_songs_reachable))).
Defined.

(** ** Sample runs *)

Example isspace_samples :
  map isspace [9; 32; 65; 160; 8203; 12288]%N = [true; true; false; true; false; true].
Proof. reflexivity. Qed.

Example strip_sample : strip (lit "  Song  A ") = lit "Song  A".
Proof. reflexivity. Qed.

(** Arguments that are not strings are turned away, the catalog kept. *)
Example add_song_not_a_string :
  add_song (PyStr (lit "Song B")) (PyInt 7) PyNone one_song
  = (Done (lit "Title, artist, and genre must be strings"), one_song).
Proof. reflexivity. Qed.

(** The scenario: add, add again, update the artist, delete, view. *)
Example scenario_song_a :
  let s0 := init in
  let '(r1, s1) := add_song (PyStr (lit "Song A")) (PyStr (lit " Artist1 ")) (PyStr (lit "Rock")) s0 in
  let '(r2, s2) := add_song (PyStr (lit "Song A")) (PyStr (lit "Artist2")) (PyStr (lit "Pop")) s1 in
  let '(r3, s3) := update_song (PyStr (lit "Song A")) (PyStr (lit "Artist2")) PyNone s2 in
  let '(r4, s4) := delete_song (PyStr (lit "Song A")) s3 in
  let '(r5, s5) := view_playlist s4 in
  r1 = Done (lit "Song 'Song A' added successfully!")
  /\ playlist s1 = [(lit "Song A", Details (lit "Artist1") (lit "Rock"))]
  /\ r2 = Done (lit "Song 'Song A' already exists!") /\ s2 = s1
  /\ r3 = Done (lit "Song 'Song A' updated successfully!")
  /\ playlist s3 = [(lit "Song A", Details (lit "Artist2") (lit "Rock"))]
  /\ r4 = Done (lit "Song 'Song A' deleted successfully!") /\ playlist s4 = []
  /\ r5 = Done (lit "Playlist is empty") /\ s5 = s4.
Proof. vm_compute. repeat split. Qed.

(** The listing of two songs, in the order they were added. *)
Example view_two_songs :
  fst (view_playlist two_songs)
  = Done (lit "Title: Song A" ++ nl ++ lit "Artist: Artist1" ++ nl
          ++ lit "Genre: Rock" ++ nl ++ nl
          ++ lit "Title: Song B" ++ nl ++ lit "Artist: Artist2" ++ nl
          ++ lit "Genre: Pop" ++ nl ++ nl).
Proof. reflexivity. Qed.

(** * Further properties of the methods *)

(** ** More on dictionaries *)

Lemma set_get_same (d : Dict.t details) k v :
  Dict.get k d = Some v -> Dict.set k v d = d.
Proof.
  induction d as [|[k0 v0] d IH]; cbn; [discriminate|].
  destruct (str_eqb k k0).
  - intros [= ->]. reflexivity.
  - intros H. rewrite (IH H). reflexivity.
Qed.

Lemma set_set (d : Dict.t details) k v w :
  Dict.set k w (Dict.set k v d) = Dict.set k w d.
Proof.
  induction d as [|[k0 v0] d IH]; cbn.
  - rewrite str_eqb_refl. reflexivity.
  - destruct (str_eqb k k0) eqn:E; cbn; rewrite E; [reflexivity|].
    rewrite IH. reflexivity.
Qed.

Lemma set_keys_present (d : Dict.t details) k v old :
  Dict.get k d = Some old -> Dict.keys (Dict.set k v d) = Dict.keys d.
Proof. intros H. apply set_present_keys, (get_contains _ _ _ H). Qed.

Lemma del_append_absent (d : Dict.t details) k v :
  Dict.contains k d = false -> Dict.del k (d ++ [(k, v)]) = d.
Proof.
  induction d as [|[k0 v0] d IH]; cbn.
  - rewrite str_eqb_refl. reflexivity.
  - destruct (str_eqb k k0); [discriminate|].
    intros H. rewrite (IH H). reflexivity.
Qed.

Lemma contains_append (d : Dict.t details) k v :
  Dict.contains k (d ++ [(k, v)]) = true.
Proof.
  induction d as [|[k0 v0] d IH]; cbn.
  - rewrite str_eqb_refl. reflexivity.
  - destruct (str_eqb k k0); [reflexivity | exact IH].
Qed.

Lemma manager_eta pm : {| playlist := playlist pm |} = pm.
Proof. destruct pm; reflexivity. Qed.

(** ** The methods on arguments of any type *)

Lemma add_song_not_str pm title artist genre :
  is_str title && is_str artist && is_str genre = false ->
  add_song title artist genre pm
  = (Done (lit "Title, artist, and genre must be strings"), pm).
Proof.
  destruct title, artist, genre; cbn; intros H;
    try discriminate H; reflexivity.
Qed.

Lemma delete_song_not_str pm title :
  is_str title = false ->
  delete_song title pm = (Done (lit "Title must be a string"), pm).
Proof. destruct title; cbn; intros H; try discriminate H; reflexivity. Qed.

Lemma update_song_not_str pm title artist genre :
  is_str title = false ->
  update_song title artist genre pm = (Done (lit "Title must be a string"), pm).
Proof. destruct title; cbn; intros H; try discriminate H; reflexivity. Qed.

(** One optional field, for a title that is a key: what is returned and
    what is stored. *)
Lemma update_field_any title value upd type_msg pm old :
  Dict.get title (playlist pm) = Some old ->
  update_field title value upd type_msg pm
  = (if wrong_type value then Raised (TypeError type_msg) else Done tt,
     {| playlist := Dict.set title (apply_field value upd old) (playlist pm) |}).
Proof.
  intros H. destruct value as [s| |z]; cbn [update_field apply_field wrong_type].
  - destruct (str_not (strip s)).
    + unfold ret. rewrite (set_get_same _ _ _ H), manager_eta. reflexivity.
    + unfold setitem_field, bind, get_playlist, put_playlist. rewrite H.
      reflexivity.
  - unfold ret. rewrite (set_get_same _ _ _ H), manager_eta. reflexivity.
  - unfold raise. rewrite (set_get_same _ _ _ H), manager_eta. reflexivity.
Qed.

(** [update_song] on a string title, case by case. *)
Lemma update_song_run pm t a g :
  update_song (PyStr t) a g pm =
    match Dict.get (strip t) (playlist pm) with
    | None => (Done (msg_not_found (strip t)), pm)
    | Some old =>
        let old1 := apply_field a set_artist old in
        if wrong_type a then (Done (lit "Artist must be a string"), pm)
        else if wrong_type g then
          (Done (lit "Genre must be a string"),
           {| playlist := Dict.set (strip t) old1 (playlist pm) |})
        else
          (Done (msg_updated (strip t)),
           {| playlist :=
                Dict.set (strip t) (apply_field g set_genre old1) (playlist pm) |})
    end.
Proof.
  destruct (Dict.get (strip t) (playlist pm)) as [old|] eqn:G.
  - pose proof (get_contains _ _ _ G) as C.
    unfold update_song, try_except, update_song_body, bind at 1, get_playlist.
    rewrite C. cbn [negb]. unfold bind.
    rewrite (update_field_any _ a set_artist _ _ _ G).
    destruct (wrong_type a) eqn:Wa.
    + destruct a; try discriminate Wa. cbn [apply_field].
      rewrite (set_get_same _ _ _ G), manager_eta. reflexivity.
    + rewrite (update_field_any _ g set_genre _ _ (apply_field a set_artist old))
        by (cbn [playlist]; apply get_set_same).
      cbn [playlist]. rewrite set_set.
      destruct (wrong_type g) eqn:Wg; [|reflexivity].
      destruct g; try discriminate Wg. reflexivity.
  - apply update_song_not_found_run.
    destruct (Dict.contains (strip t) (playlist pm)) eqn:C; [|reflexivity].
    apply contains_get in C. destruct C as [v Hv]. congruence.
Qed.

Lemma is_str_all title artist genre :
  is_str title && is_str artist && is_str genre = true ->
  exists t a g, title = PyStr t /\ artist = PyStr a /\ genre = PyStr g.
Proof.
  destruct title, artist, genre; cbn; intros H; try discriminate H.
  eauto 7.
Qed.



(** X2: an argument that is not a string is turned away before anything
    else is looked at: [add_song] with any of its three arguments not a
    string, and [update_song] and [delete_song] with a title that is not
    a string, answer their type message and leave the catalog as it
    was. *)
Theorem not_a_string_rejected pm title artist genre :
  (is_str title && is_str artist && is_str genre = false ->
   add_song title artist genre pm
   = (Done (lit "Title, artist, and genre must be strings"), pm))
  /\ (is_str title = false ->
      update_song title artist genre pm = (Done (lit "Title must be a string"), pm)
      /\ delete_song title pm = (Done (lit "Title must be a string"), pm)).
Proof.
  split; [apply add_song_not_str|].
  intros H. split; [apply update_song_not_str | apply delete_song_not_str];
    exact H.
Qed.

Lemma not_a_string_rejected_witness :
  add_song PyNone (PyStr (lit "")) (PyStr (lit "Rock")) one_song
  = (Done (lit "Title, artist, and genre must be strings"), one_song)
  /\ update_song PyNone (PyStr (lit "")) (PyStr (lit "Rock")) one_song
     = (Done (lit "Title must be a string"), one_song)
  /\ delete_song PyNone one_song = (Done (lit "Title must be a string"), one_song).
Proof.
  refine (let H := not_a_string_rejected one_song PyNone (PyStr (lit ""))
                     (PyStr (lit "Rock")) in
          conj (proj1 H _) (proj2 H _)); reflexivity.
Defined.

(** X3: [update_song] writes the artist before it tests the genre.  For a
    title that is a key: a genre that is neither absent nor a string
    gets "Genre must be a string" although an artist given with it, not
    empty once trimmed, is by then stored; an artist of that kind gets
    "Artist must be a string" and nothing is stored, whatever the
    genre. *)
Theorem update_song_half_done pm t a z genre old :
  Dict.get (strip t) (playlist pm) = Some old ->
  strip a <> [] ->
  let pm' := {| playlist :=
                  Dict.set (strip t) (set_artist old (strip a)) (playlist pm) |} in
  update_song (PyStr t) (PyStr a) (PyInt z) pm
  = (Done (lit "Genre must be a string"), pm')
  /\ Dict.get (strip t) (playlist pm') = Some (set_artist old (strip a))
  /\ update_song (PyStr t) (PyInt z) genre pm
     = (Done (lit "Artist must be a string"), pm).
Proof.
  intros G Ha pm'. subst pm'. apply str_not_false in Ha.
  rewrite !update_song_run, G. cbn [wrong_type apply_field playlist].
  rewrite Ha. repeat split. apply get_set_same.
Qed.

Lemma update_song_half_done_witness :
  update_song (PyStr (lit "Song A")) (PyStr (lit " Artist3 ")) (PyInt 7) one_song
  = (Done (lit "Genre must be a string"),
     {| playlist := [(lit "Song A", Details (lit "Artist3") (lit "Rock"))] |}).
Proof.
  refine (proj1 (update_song_half_done one_song (lit "Song A") (lit " Artist3 ")
                   7%Z PyNone (Details (lit "Artist1") (lit "Rock")) _ _));
    vm_compute; congruence.
Defined.

Lemma update_song_keys_any pm title artist genre :
  Dict.keys (playlist (snd (update_song title artist genre pm)))
  = Dict.keys (playlist pm).
Proof.
  destruct title as [t| |z];
    [|rewrite update_song_not_str by reflexivity; reflexivity..].
  rewrite update_song_run.
  destruct (Dict.get (strip t) (playlist pm)) as [old|] eqn:G; [|reflexivity].
  cbv zeta. destruct (wrong_type artist); [reflexivity|].
  destruct (wrong_type genre); cbn [snd playlist]; eapply set_keys_present, G.
Qed.

(** X4: whatever its arguments and whichever message it returns,
    [update_song] leaves the keys and their order as they were, and the
    record of every key other than the trimmed title. *)
Theorem update_song_keeps_keys pm title artist genre :
  let pm' := snd (update_song title artist genre pm) in
  Dict.keys (playlist pm') = Dict.keys (playlist pm)
  /\ (forall k, (forall t, title = PyStr t -> k <> strip t) ->
        Dict.get k (playlist pm') = Dict.get k (playlist pm)).
Proof.
  cbv zeta. split; [apply update_song_keys_any|].
  destruct title as [t| |z];
    [|rewrite update_song_not_str by reflexivity; reflexivity..].
  rewrite update_song_run.
  destruct (Dict.get (strip t) (playlist pm)) as [old|]; [|reflexivity].
  cbv zeta. destruct (wrong_type artist); [reflexivity|].
  destruct (wrong_type genre); cbn [snd playlist];
    intros k N; apply get_set_other, (N t eq_refl).
Qed.

(** ** What the methods keep, on arguments of any type *)

Section Keeps.

Variable P : str * details -> Prop.

Hypothesis P_new : forall t a g,
  strip t <> [] -> strip a <> [] -> strip g <> [] ->
  P (strip t, {| artist := strip a; genre := strip g |}).
Hypothesis P_artist : forall k det s,
  strip s <> [] -> P (k, det) -> P (k, set_artist det (strip s)).
Hypothesis P_genre : forall k det s,
  strip s <> [] -> P (k, det) -> P (k, set_genre det (strip s)).

Let kept (pm : PlaylistManager) : Prop :=
  Dict.wf (playlist pm) /\ Forall P (playlist pm).

Lemma apply_field_artist_keeps k det v :
  P (k, det) -> P (k, apply_field v set_artist det).
Proof.
  intros H. destruct v as [s| |z]; cbn [apply_field]; try exact H.
  destruct (str_not (strip s)) eqn:E; [exact H|].
  apply P_artist; [apply str_not_false, E | exact H].
Qed.

Lemma apply_field_genre_keeps k det v :
  P (k, det) -> P (k, apply_field v set_genre det).
Proof.
  intros H. destruct v as [s| |z]; cbn [apply_field]; try exact H.
  destruct (str_not (strip s)) eqn:E; [exact H|].
  apply P_genre; [apply str_not_false, E | exact H].
Qed.

Lemma set_keeps pm k old new :
  kept pm -> Dict.get k (playlist pm) = Some old -> P (k, new) ->
  kept {| playlist := Dict.set k new (playlist pm) |}.
Proof.
  intros [W F] G H. split; cbn [playlist].
  - unfold Dict.wf. rewrite (set_keys_present _ _ _ _ G). exact W.
  - apply set_present_Forall; [exact F | intros k' ->; exact H].
Qed.

Lemma add_song_keeps pm title artist genre :
  kept pm -> kept (snd (add_song title artist genre pm)).
Proof.
  intros K. destruct (is_str title && is_str artist && is_str genre) eqn:S;
    [|rewrite (add_song_not_str _ _ _ _ S); exact K].
  destruct (is_str_all _ _ _ S) as (t & a & g & -> & -> & ->).
  rewrite add_song_run.
  destruct (str_not (strip t)) eqn:Et; [exact K|].
  destruct (str_not (strip a)) eqn:Ea; [exact K|].
  destruct (str_not (strip g)) eqn:Eg; [exact K|].
  apply str_not_false in Et, Ea, Eg. cbn [orb].
  destruct (Dict.contains (strip t) (playlist pm)) eqn:Ek; [exact K|].
  destruct K as [W F]. rewrite (set_absent _ _ _ Ek). split; cbn [snd playlist].
  - apply append_wf; assumption.
  - apply Forall_app. split; [assumption|].
    constructor; [apply P_new; assumption | constructor].
Qed.

Lemma update_song_keeps pm title artist genre :
  kept pm -> kept (snd (update_song title artist genre pm)).
Proof.
  intros K. destruct title as [t| |z];
    [|rewrite update_song_not_str by reflexivity; exact K..].
  rewrite update_song_run.
  destruct (Dict.get (strip t) (playlist pm)) as [old|] eqn:G; [|exact K].
  cbv zeta. destruct (wrong_type artist); [exact K|].
  assert (H : P (strip t, old))
    by exact (proj1 (Forall_forall _ _) (proj2 K) _ (get_In _ _ _ G)).
  destruct (wrong_type genre); cbn [snd]; eapply set_keeps; eauto.
  - apply apply_field_artist_keeps, H.
  - apply apply_field_genre_keeps, apply_field_artist_keeps, H.
Qed.

Lemma delete_song_keeps pm title :
  kept pm -> kept (snd (delete_song title pm)).
Proof.
  intros K. destruct title as [t| |z];
    [|rewrite delete_song_not_str by reflexivity; exact K..].
  rewrite delete_song_run.
  destruct (Dict.contains (strip t) (playlist pm)); [|exact K].
  destruct K as [W F].
  split; cbn [snd playlist]; [apply del_wf | apply del_Forall]; assumption.
Qed.

End Keeps.

Lemma trimmed_strip s : strip s <> [] -> trimmed (strip s).
Proof. intros H. split; [apply strip_idempotent | exact H]. Qed.

Lemma trimmed_not_empty s : trimmed s -> strip s <> [].
Proof. intros [E N]. rewrite E. exact N. Qed.

Lemma record_trimmed_new t a g :
  strip t <> [] -> strip a <> [] -> strip g <> [] ->
  record_trimmed (strip t, {| artist := strip a; genre := strip g |}).
Proof.
  intros Ht Ha Hg. repeat split; cbn [fst snd artist genre];
    auto using strip_idempotent.
Qed.

Lemma record_trimmed_set_artist k det s :
  strip s <> [] -> record_trimmed (k, det) ->
  record_trimmed (k, set_artist det (strip s)).
Proof.
  intros Hs (Hk & Ha & Hg). split; [exact Hk|].
  split; [apply trimmed_strip, Hs | exact Hg].
Qed.

Lemma record_trimmed_set_genre k det s :
  strip s <> [] -> record_trimmed (k, det) ->
  record_trimmed (k, set_genre det (strip s)).
Proof.
  intros Hs (Hk & Ha & Hg). split; [exact Hk|].
  split; [exact Ha | apply trimmed_strip, Hs].
Qed.



(** ** The catalogs that can be reached *)

Lemma exec_stored c pm : catalog_stored pm -> catalog_stored (exec c pm).
Proof.
  intros I. destruct c as [t a g| |t a g|t]; unfold exec; cbn [run_call].
  - apply (add_song_keeps record_trimmed record_trimmed_new); exact I.
  - rewrite view_playlist_run. exact I.
  - apply (update_song_keeps record_trimmed);
      [exact record_trimmed_set_artist | exact record_trimmed_set_genre | exact I].
  - apply (delete_song_keeps record_trimmed); exact I.
Qed.

Lemma stored_reachable d :
  catalog_stored {| playlist := d |} -> reachable {| playlist := d |}.
Proof.
  induction d as [|[k [a g]] d IH] using rev_ind; intros [W F].
  - apply reachable_init.
  - cbn [playlist] in W, F. apply Forall_app in F. destruct F as [Fd Fk].
    inversion Fk as [|? ? (Hk & Ha & Hg) _]; subst.
    cbn [fst snd artist genre] in Hk, Ha, Hg.
    assert (Wd : Dict.wf d /\ Dict.contains k d = false).
    { unfold Dict.wf, Dict.keys in W. rewrite map_app in W. cbn in W.
      split; [exact (NoDup_app_remove_r _ _ W)|].
      apply contains_false_In. intros H.
      apply NoDup_remove_2 in W. apply W. rewrite app_nil_r. exact H. }
    destruct Wd as [Wd Ck].
    assert (E : exec (Add k a g) {| playlist := d |}
                = {| playlist := d ++ [(k, {| artist := a; genre := g |})] |}).
    { unfold exec. cbn [run_call]. rewrite add_song_run.
      rewrite all_filled by (apply trimmed_not_empty; assumption).
      destruct Hk as [-> _], Ha as [-> _], Hg as [-> _]. cbn [playlist].
      rewrite Ck, (set_absent _ _ _ Ck). reflexivity. }
    rewrite <- E. apply reachable_step, IH. split; assumption.
Qed.

(** X6: the catalogs that calls on strings can produce from the empty one
    are exactly those in which each key is held once and every title,
    artist and genre is stored trimmed (equal to its own trimmed form)
    and not empty. *)
Theorem reachable_iff_stored pm : reachable pm <-> catalog_stored pm.
Proof.
  split.
  - induction 1 as [|pm c R IH]; [split; constructor | apply exec_stored, IH].
  - destruct pm as [d]. apply stored_reachable.
Qed.

Lemma reachable_iff_stored_witness : catalog_stored two_songs.
Proof.
  refine (proj1 (reachable_iff_stored two_songs) _).
  apply two_songs_reachable.
Defined.

(** ** How the methods compose *)

(** X7: after [add_song] has added a song, the listing of
    [view_playlist] is the blocks of the songs that were there, in their
    order, followed by the block of the new one; on a catalog that was
    empty it is that one block. *)
Theorem add_song_then_view pm t a g :
  strip t <> [] -> strip a <> [] -> strip g <> [] ->
  Dict.contains (strip t) (playlist pm) = false ->
  let pm' := snd (add_song (PyStr t) (PyStr a) (PyStr g) pm) in
  view_playlist pm'
  = (Done (List.concat (map block (playlist pm))
           ++ block (strip t, {| artist := strip a; genre := strip g |})), pm').
Proof.
  intros Ht Ha Hg Hk. cbv zeta.
  rewrite add_song_run, all_filled, Hk by assumption. cbn [snd].
  rewrite view_playlist_run. cbn [playlist]. rewrite (set_absent _ _ _ Hk).
  assert (N : forall d (e : str * details), Dict.is_empty (d ++ [e]) = false)
    by (intros [|] ?; reflexivity).
  rewrite N, map_app, List.concat_app. cbn [map List.concat].
  rewrite app_nil_r. reflexivity.
Qed.

Lemma add_song_then_view_witness :
  view_playlist one_song
  = (Done (block (lit "Song A", Details (lit "Artist1") (lit "Rock"))), one_song).
Proof.
  refine (add_song_then_view init (lit "Song A") (lit "Artist1") (lit "Rock")
            _ _ _ _);
    vm_compute; congruence.
Defined.

(** X8: adding a song and deleting it right after gives back the catalog
    as it was before, entry for entry. *)
Theorem add_song_then_delete pm t a g :
  strip t <> [] -> strip a <> [] -> strip g <> [] ->
  Dict.contains (strip t) (playlist pm) = false ->
  delete_song (PyStr t) (snd (add_song (PyStr t) (PyStr a) (PyStr g) pm))
  = (Done (msg_deleted (strip t)), pm).
Proof.
  intros Ht Ha Hg Hk.
  rewrite add_song_run, all_filled, Hk by assumption. cbn [snd].
  rewrite delete_song_run. cbn [playlist]. rewrite (set_absent _ _ _ Hk).
  rewrite contains_append, (del_append_absent _ _ _ Hk), manager_eta.
  reflexivity.
Qed.

Lemma add_song_then_delete_witness :
  delete_song (PyStr (lit "Song B")) two_songs
  = (Done (lit "Song 'Song B' deleted successfully!"), one_song).
Proof.
  refine (add_song_then_delete one_song (lit "Song B") (lit "Artist2") (lit "Pop")
            _ _ _ _);
    vm_compute; congruence.
Defined.

(** X9: whitespace around an argument does not count: each method gives
    the same message and the same catalog on the trimmed arguments as on
    the arguments as typed. *)
Theorem trimmed_arguments_same pm t a g oa og :
  add_song (PyStr (strip t)) (PyStr (strip a)) (PyStr (strip g)) pm
  = add_song (PyStr t) (PyStr a) (PyStr g) pm
  /\ update_song (PyStr (strip t)) (optional (option_map strip oa))
       (optional (option_map strip og)) pm
     = update_song (PyStr t) (optional oa) (optional og) pm
  /\ delete_song (PyStr (strip t)) pm = delete_song (PyStr t) pm.
Proof.
  split; [|split].
  - rewrite !add_song_run, !strip_idempotent. reflexivity.
  - rewrite !update_song_run, !strip_idempotent.
    destruct oa as [sa|], og as [sg|]; cbn [optional option_map apply_field];
      rewrite ?strip_idempotent; reflexivity.
  - rewrite !delete_song_run, !strip_idempotent. reflexivity.
Qed.

Lemma apply_field_twice a g old :
  let new := apply_field g set_genre (apply_field a set_artist old) in
  apply_field a set_artist new = new
  /\ apply_field g set_genre (apply_field a set_artist new) = new.
Proof.
  destruct old as [oa og].
  destruct a as [sa| |za], g as [sg| |zg]; cbn [apply_field];
    try destruct (str_not (strip sa)); try destruct (str_not (strip sg));
    split; reflexivity.
Qed.

Lemma apply_field_artist_twice a old :
  apply_field a set_artist (apply_field a set_artist old)
  = apply_field a set_artist old.
Proof.
  destruct old as [oa og]. destruct a as [sa| |za]; cbn [apply_field];
    try destruct (str_not (strip sa)) eqn:E; cbn [apply_field];
    rewrite ?E; reflexivity.
Qed.

(** X10: [update_song] called a second time with the same arguments
    returns the same message and changes nothing more, whatever the
    arguments are. *)
Theorem update_song_twice pm title artist genre :
  let once := update_song title artist genre pm in
  update_song title artist genre (snd once) = once.
Proof.
  cbv zeta. destruct title as [t| |z];
    [|rewrite !update_song_not_str by reflexivity; reflexivity..].
  rewrite (update_song_run pm).
  destruct (Dict.get (strip t) (playlist pm)) as [old|] eqn:G; cbv zeta.
  - destruct (wrong_type artist) eqn:Wa.
    + cbn [snd]. rewrite update_song_run, G. cbv zeta. rewrite Wa. reflexivity.
    + destruct (wrong_type genre) eqn:Wg; cbn [snd];
        rewrite update_song_run; cbn [playlist];
        rewrite get_set_same; cbv zeta; rewrite Wa, Wg, set_set.
      * rewrite apply_field_artist_twice. reflexivity.
      * rewrite (proj2 (apply_field_twice artist genre old)). reflexivity.
  - cbn [snd]. rewrite update_song_run, G. reflexivity.
Qed.

(** X11: for a title that is a key, [update_song] with an artist and a
    genre that are each absent or empty once trimmed answers
    "Song '<title>' updated successfully!" and the catalog is the same as
    before, entry for entry. *)
Theorem update_song_nothing_to_do pm t (a g : option str) :
  Dict.contains (strip t) (playlist pm) = true ->
  (forall s, a = Some s -> strip s = []) ->
  (forall s, g = Some s -> strip s = []) ->
  update_song (PyStr t) (optional a) (optional g) pm
  = (Done (msg_updated (strip t)), pm).
Proof.
  intros C Ha Hg. apply contains_get in C. destruct C as [old G].
  rewrite update_song_run, G. cbv zeta.
  assert (Ea : apply_field (optional a) set_artist old = old).
  { destruct a as [s|]; cbn [optional apply_field]; [|reflexivity].
    rewrite (Ha s eq_refl). reflexivity. }
  assert (Eg : apply_field (optional g) set_genre old = old).
  { destruct g as [s|]; cbn [optional apply_field]; [|reflexivity].
    rewrite (Hg s eq_refl). reflexivity. }
  rewrite Ea, Eg, (set_get_same _ _ _ G), manager_eta.
  destruct a, g; reflexivity.
Qed.

Lemma update_song_nothing_to_do_witness :
  update_song (PyStr (lit " Song A")) (optional (Some (lit "  "))) (optional None)
    two_songs
  = (Done (lit "Song 'Song A' updated successfully!"), two_songs).
Proof.
  refine (update_song_nothing_to_do two_songs (lit " Song A") (Some (lit "  "))
            None _ _ _).
  - vm_compute. reflexivity.
  - intros s [= <-]. vm_compute. reflexivity.
  - intros s [=].
Defined.

(** * The buttons *)

Lemma str_eqb_sym a b : str_eqb a b = str_eqb b a.
Proof.
  destruct (str_eqb_spec a b) as [->|N].
  - symmetry. apply str_eqb_refl.
  - symmetry. apply str_eqb_neq. congruence.
Qed.

Lemma inv_key_trimmed pm k :
  catalog_inv pm -> In k (Dict.keys (playlist pm)) -> strip k = k.
Proof.
  intros [_ F] H. apply in_map_iff in H. destruct H as ([k' v] & <- & H).
  exact (proj1 (proj1 (Forall_forall _ _) F _ H)).
Qed.

Lemma get_key (d : Dict.t details) k v : Dict.get k d = Some v -> In k (Dict.keys d).
Proof. intros H. apply contains_In, (get_contains _ _ _ H). Qed.

Lemma filled_or_none_field value upd old :
  apply_field (filled_or_none value) upd old
  = if str_not (strip value) then old else upd old (strip value).
Proof.
  unfold filled_or_none. destruct (str_not (strip value)) eqn:E;
    cbn [apply_field]; rewrite ?E; reflexivity.
Qed.

Lemma filled_or_none_type value : wrong_type (filled_or_none value) = false.
Proof. unfold filled_or_none. destruct (str_not (strip value)); reflexivity. Qed.

(** X12: the button "Update" on a song of a catalog that keeps its
    invariant.  With both fields of the menu empty once trimmed, the
    catalog and the fields stay and the message is
    "Error: At least one field must be filled".  With one of them filled,
    the song is found, each filled field is stored trimmed and an empty
    one keeps what the song had, the message is the one of success and
    both fields of the menu are emptied. *)
Theorem update_button_updates pm b title old :
  catalog_inv pm ->
  Dict.get title (playlist pm) = Some old ->
  let na := strip (Buffers.new_artist b) in
  let ng := strip (Buffers.new_genre b) in
  (na = [] /\ ng = [] ->
   update_button title pm b = (Done tt, (pm, Buffers.set_message b msg_fill_one)))
  /\ (na <> [] \/ ng <> [] ->
      update_button title pm b
      = (Done tt,
         ({| playlist :=
               Dict.set title
                 {| artist := if str_not na then artist old else na;
                    genre := if str_not ng then genre old else ng |}
                 (playlist pm) |},
          Buffers.clear_new (Buffers.set_message b (msg_updated title))))).
Proof.
  intros I G na ng. subst na ng. unfold update_button.
  pose proof (inv_key_trimmed _ _ I (get_key _ _ _ G)) as T.
  split.
  - intros [Ea Eg]. rewrite Ea, Eg. reflexivity.
  - intros H.
    assert (E : negb (str_not (strip (Buffers.new_artist b)))
                || negb (str_not (strip (Buffers.new_genre b))) = true).
    { apply orb_true_iff. rewrite !negb_true_iff, !str_not_false. exact H. }
    rewrite E, update_song_run, T, G. cbv zeta.
    rewrite !filled_or_none_type, !filled_or_none_field.
    destruct old as [oa og]. cbn [artist genre].
    destruct (str_not (strip (Buffers.new_artist b)));
      destruct (str_not (strip (Buffers.new_genre b))); reflexivity.
Qed.

Lemma update_button_updates_witness :
  update_button (lit "Song A") two_songs
    (Buffers.Make [] [] [] [] (lit " ") (lit " Jazz ") [])
  = (Done tt,
     ({| playlist :=
           [(lit "Song A", Details (lit "Artist1") (lit "Jazz"));
            (lit "Song B", Details (lit "Artist2") (lit "Pop"))] |},
      Buffers.Make [] [] [] (lit "Song 'Song A' updated successfully!") [] [] [])).
Proof.
  refine (proj2 (update_button_updates two_songs
                   (Buffers.Make [] [] [] [] (lit " ") (lit " Jazz ") [])
                   (lit "Song A") (Details (lit "Artist1") (lit "Rock")) _ _) _).
  - apply exec_inv, exec_inv, init_inv.
  - reflexivity.
  - right. vm_compute. congruence.
Defined.

(** ** The deletions of a frame *)

Lemma filter_keys_all (d : Dict.t details) k :
  ~ In k (Dict.keys d) ->
  filter (fun kv => negb (str_eqb (fst kv) k)) d = d.
Proof.
  induction d as [|[k0 v0] d IH]; cbn; [reflexivity|].
  intros H. destruct (str_eqb_spec k0 k) as [->|N]; cbn.
  - exfalso. apply H. left; reflexivity.
  - rewrite IH by tauto. reflexivity.
Qed.

Lemma del_filter (d : Dict.t details) k :
  Dict.wf d -> Dict.del k d = filter (fun kv => negb (str_eqb (fst kv) k)) d.
Proof.
  unfold Dict.wf. induction d as [|[k0 v0] d IH]; cbn; [reflexivity|].
  intros W. inversion W as [|? ? Hn Wd]; subst.
  rewrite (str_eqb_sym k0 k). destruct (str_eqb_spec k k0) as [->|N]; cbn.
  - symmetry. apply filter_keys_all, Hn.
  - rewrite (IH Wd). reflexivity.
Qed.

Lemma filter_filter {A} (f g : A -> bool) l :
  filter f (filter g l) = filter (fun x => g x && f x) l.
Proof.
  induction l as [|x l IH]; cbn; [reflexivity|].
  destruct (g x); cbn; [destruct (f x)|]; rewrite IH; reflexivity.
Qed.

Lemma filter_all {A} (l : list A) : filter (fun _ => true) l = l.
Proof. induction l as [|x l IH]; cbn; congruence. Qed.

Lemma del_keys_other (d : Dict.t details) k x :
  x <> k -> In x (Dict.keys d) -> In x (Dict.keys (Dict.del k d)).
Proof.
  intros N. induction d as [|[k0 v0] d IH]; cbn; [tauto|].
  destruct (str_eqb_spec k k0) as [->|N0]; cbn.
  - intros [E|H]; [congruence | exact H].
  - intros [E|H]; [left; exact E | right; exact (IH H)].
Qed.

Lemma last_cons {A} (a d : A) l : last (a :: l) d = last l a.
Proof.
  revert a d. induction l as [|x l IH]; intros a d; [reflexivity|].
  change (last (a :: x :: l) d) with (last (x :: l) d).
  rewrite !IH. reflexivity.
Qed.

Lemma buffers_eta b :
  Buffers.Make (Buffers.title b) (Buffers.artist b) (Buffers.genre b)
    (Buffers.message b) (Buffers.new_artist b) (Buffers.new_genre b)
    (Buffers.selected_song b) = b.
Proof. destruct b; reflexivity. Qed.

(** X13: the deletions of a frame, on a catalog that keeps its invariant
    and for titles taken from its keys, each once: the songs marked are
    gone and the others stay, in their order; the message is the one of
    success for the last title; the selection is emptied when it was one
    of the titles; the other fields stay. *)
Theorem delete_marked_removes to_delete pm b :
  catalog_inv pm ->
  NoDup to_delete ->
  incl to_delete (Dict.keys (playlist pm)) ->
  delete_marked to_delete pm b
  = (Done tt,
     ({| playlist :=
           filter (fun kv => negb (marked to_delete (fst kv))) (playlist pm) |},
      Buffers.Make (Buffers.title b) (Buffers.artist b) (Buffers.genre b)
        (last (map msg_deleted to_delete) (Buffers.message b))
        (Buffers.new_artist b) (Buffers.new_genre b)
        (if marked to_delete (Buffers.selected_song b) then []
         else Buffers.selected_song b))).
Proof.
  revert pm b. induction to_delete as [|title rest IH]; intros pm b I N K.
  - cbn [delete_marked map last marked existsb negb].
    rewrite buffers_eta, filter_all, manager_eta. reflexivity.
  - assert (Hin : In title (Dict.keys (playlist pm))) by (apply K; left; reflexivity).
    pose proof (inv_key_trimmed _ _ I Hin) as T.
    inversion N as [|? ? Hn Nr]; subst.
    assert (I' : catalog_inv {| playlist := Dict.del title (playlist pm) |}).
    { destruct I as [W F]. split; cbn [playlist];
        [apply del_wf | apply del_Forall]; assumption. }
    assert (K' : incl rest (Dict.keys (Dict.del title (playlist pm)))).
    { intros x Hx. apply del_keys_other.
      - intros ->. exact (Hn Hx).
      - apply K. right; exact Hx. }
    assert (Ef : filter (fun kv => negb (marked rest (fst kv)))
                   (Dict.del title (playlist pm))
                 = filter (fun kv => negb (marked (title :: rest) (fst kv)))
                     (playlist pm)).
    { rewrite (del_filter _ _ (proj1 I)), filter_filter.
      apply filter_ext. intros [k v]. cbn [fst marked existsb].
      rewrite negb_orb. reflexivity. }
    destruct b as [bt ba bg bm bna bng bs].
    cbn [delete_marked]. rewrite delete_song_run, T, (proj2 (contains_In _ _) Hin).
    cbn [Buffers.set_message Buffers.set_selected_song Buffers.title
           Buffers.artist Buffers.genre Buffers.message Buffers.new_artist
           Buffers.new_genre Buffers.selected_song].
    rewrite <- Ef. cbn [map marked existsb]. rewrite last_cons.
    destruct (str_eqb bs title); rewrite (IH _ _ I' Nr K');
      cbn [Buffers.set_message Buffers.set_selected_song Buffers.title
             Buffers.artist Buffers.genre Buffers.message Buffers.new_artist
             Buffers.new_genre Buffers.selected_song playlist orb];
      [destruct (marked rest [])|]; reflexivity.
Qed.

Lemma delete_marked_removes_witness :
  delete_marked [lit "Song A"] two_songs
    (Buffers.Make [] [] [] [] [] [] (lit "Song A"))
  = (Done tt,
     ({| playlist := [(lit "Song B", Details (lit "Artist2") (lit "Pop"))] |},
      Buffers.Make [] [] [] (lit "Song 'Song A' deleted successfully!") [] [] [])).
Proof.
  refine (delete_marked_removes [lit "Song A"] two_songs
            (Buffers.Make [] [] [] [] [] [] (lit "Song A")) _ _ _).
  - apply exec_inv, exec_inv, init_inv.
  - repeat constructor. intros [].
  - intros x [<-|[]]. vm_compute. left; reflexivity.
Defined.

(** ** No handler fails *)

Lemma add_song_str_done pm t a g :
  exists m, add_song (PyStr t) (PyStr a) (PyStr g) pm = (Done m, exec (Add t a g) pm).
Proof.
  unfold exec. cbn [run_call]. rewrite add_song_run.
  destruct (str_not (strip t) || str_not (strip a) || str_not (strip g));
    [|destruct (Dict.contains (strip t) (playlist pm))]; eexists; reflexivity.
Qed.

Lemma update_song_str_done pm t a g :
  exists m, update_song (PyStr t) (optional a) (optional g) pm
            = (Done m, exec (Update t a g) pm).
Proof.
  unfold exec. cbn [run_call]. rewrite update_song_run.
  destruct (Dict.get (strip t) (playlist pm)); [|eexists; reflexivity].
  destruct a, g; eexists; reflexivity.
Qed.

Lemma delete_song_str_done pm t :
  exists m, delete_song (PyStr t) pm = (Done m, exec (Delete t) pm).
Proof.
  unfold exec. cbn [run_call]. rewrite delete_song_run.
  destruct (Dict.contains (strip t) (playlist pm)); eexists; reflexivity.
Qed.

Lemma filled_or_none_optional value :
  filled_or_none value
  = optional (if str_not (strip value) then None else Some value).
Proof. unfold filled_or_none. destruct (str_not (strip value)); reflexivity. Qed.

Lemma delete_marked_done to_delete pm b :
  exists pm' b',
    delete_marked to_delete pm b = (Done tt, (pm', b'))
    /\ (reachable pm -> reachable pm').
Proof.
  revert pm b. induction to_delete as [|title rest IH]; intros pm b.
  - exists pm, b. split; [reflexivity | trivial].
  - cbn [delete_marked].
    destruct (delete_song_str_done pm title) as [m ->].
    match goal with |- context [delete_marked rest ?p ?c] =>
      destruct (IH p c) as (pm' & b' & E & R) end.
    exists pm', b'. split; [exact E|].
    intros H. apply R, reachable_step, H.
Qed.

(** X14: pressing "Add Song" or "Update" and the deletions of a frame
    end without an exception, whatever the texts of the fields, the title
    of the song and the titles marked; and the catalog they leave is one
    that calls on strings can produce, when the one they start from is. *)
Theorem handlers_safe pm b title to_delete :
  (fst (add_song_button pm b) = Done tt
   /\ fst (update_button title pm b) = Done tt
   /\ fst (delete_marked to_delete pm b) = Done tt)
  /\ (reachable pm ->
      reachable (fst (snd (add_song_button pm b)))
      /\ reachable (fst (snd (update_button title pm b)))
      /\ reachable (fst (snd (delete_marked to_delete pm b)))).
Proof.
  destruct (add_song_str_done pm (Buffers.title b) (Buffers.artist b)
              (Buffers.genre b)) as [ma Ea].
  destruct (delete_marked_done to_delete pm b) as (pd & bd & Ed & Rd).
  assert (U : exists pu bu,
             update_button title pm b = (Done tt, (pu, bu))
             /\ (reachable pm -> reachable pu)).
  { unfold update_button.
    destruct (negb (str_not (strip (Buffers.new_artist b)))
              || negb (str_not (strip (Buffers.new_genre b))));
      [|eexists _, _; split; [reflexivity | trivial]].
    rewrite !filled_or_none_optional.
    match goal with |- context [update_song _ (optional ?x) (optional ?y) _] =>
      destruct (update_song_str_done pm title x y) as [mu ->] end.
    eexists _, _. split; [reflexivity|]. apply reachable_step. }
  destruct U as (pu & bu & Eu & Ru).
  unfold add_song_button. rewrite Ea, Eu, Ed. cbn [fst snd].
  split; [auto|]. intros R. repeat split; auto using reachable_step.
Qed.

Lemma handlers_safe_witness :
  reachable (fst (snd (add_song_button two_songs Buffers.initial)))
  /\ reachable (fst (snd (update_button (lit "Song A") two_songs Buffers.initial)))
  /\ reachable (fst (snd (delete_marked [lit "Song A"] two_songs Buffers.initial))).
Proof.
  refine (proj2 (handlers_safe two_songs Buffers.initial (lit "Song A")
                   [lit "Song A"]) _).
  apply two_songs_reachable.
Defined.

(** * The colour of the message *)

Lemma startswith_skip p u c v :
  existsb (N.eqb c) p = false ->
  p <> [] ->
  startswith (u ++ c :: v) p = startswith u p.
Proof.
  revert u. induction p as [|a p IH]; intros u Hc Hp; [congruence|].
  cbn [existsb] in Hc. apply orb_false_iff in Hc. destruct Hc as [Hca Hcp].
  destruct u as [|b u]; cbn [app startswith].
  - rewrite N.eqb_sym, Hca. reflexivity.
  - destruct p as [|a' p']; [destruct u; reflexivity|].
    rewrite IH by (assumption || discriminate). reflexivity.
Qed.

(** A code point that is not in the pattern cuts the search in two. *)
Lemma occurs_cut p u c v :
  existsb (N.eqb c) p = false ->
  p <> [] ->
  occurs p (u ++ c :: v) = occurs p u || occurs p v.
Proof.
  intros Hc Hp. induction u as [|b u IH].
  - cbn [app]. change (occurs p (c :: v)) with (startswith (c :: v) p || occurs p v).
    pose proof (startswith_skip p [] c v Hc Hp) as E. cbn [app] in E.
    rewrite E. destruct p; [congruence | reflexivity].
  - change (occurs p ((b :: u) ++ c :: v))
      with (startswith ((b :: u) ++ c :: v) p || occurs p (u ++ c :: v)).
    change (occurs p (b :: u)) with (startswith (b :: u) p || occurs p u).
    rewrite startswith_skip, IH, orb_assoc by assumption. reflexivity.
Qed.

Lemma is_ascii_app u v : is_ascii (u ++ v) = is_ascii u && is_ascii v.
Proof. apply forallb_app. Qed.

(** The colour of a message that names a title between quotes. *)
Lemma color_quoted before t after :
  is_ascii before = true -> is_ascii after = true ->
  occurs (lit "error") (map lower_cp before) = false ->
  occurs (lit "error") (map lower_cp after) = false ->
  is_ascii t = true ->
  color (before ++ 39%N :: t ++ 39%N :: after)
  = Some (if occurs (lit "error") (map lower_cp t) then red else green).
Proof.
  intros Ab Aa Ob Oa At. unfold color, lower.
  assert (A : is_ascii (before ++ 39%N :: t ++ 39%N :: after) = true).
  { rewrite is_ascii_app. cbn [is_ascii forallb].
    change (forallb (fun c => (c <? 128)%N) (t ++ 39%N :: after))
      with (is_ascii (t ++ 39%N :: after)).
    rewrite is_ascii_app. cbn [is_ascii forallb].
    unfold is_ascii in *. rewrite Ab, At, Aa. reflexivity. }
  rewrite A, map_app. cbn [map]. rewrite map_app. cbn [map].
  change (lower_cp 39) with 39%N.
  rewrite !occurs_cut, Ob, Oa, orb_false_r by (reflexivity || discriminate).
  reflexivity.
Qed.

(** X15: the colour follows the title, not the outcome.  For a title of
    ASCII code points, each message that names it (added, already
    exists, not found, updated, deleted) is red when the title, in small
    letters, contains "error" and green otherwise; the messages of an
    empty field, of a wrong type and of the empty playlist are green; the
    message of the button "Update" with nothing filled is red. *)
Theorem color_follows_title t :
  is_ascii t = true ->
  let by_title :=
    Some (if occurs (lit "error") (map lower_cp t) then red else green) in
  color (msg_added t) = by_title
  /\ color (msg_exists t) = by_title
  /\ color (msg_not_found t) = by_title
  /\ color (msg_updated t) = by_title
  /\ color (msg_deleted t) = by_title
  /\ color msg_empty_field = Some green
  /\ color msg_playlist_empty = Some green
  /\ color (lit "Title, artist, and genre must be strings") = Some green
  /\ color (lit "Title must be a string") = Some green
  /\ color (lit "Artist must be a string") = Some green
  /\ color (lit "Genre must be a string") = Some green
  /\ color msg_fill_one = Some red.
Proof.
  intros At by_title. subst by_title.
  repeat split; try reflexivity.
  - exact (color_quoted (lit "Song ") t (lit " added successfully!")
             eq_refl eq_refl eq_refl eq_refl At).
  - exact (color_quoted (lit "Song ") t (lit " already exists!")
             eq_refl eq_refl eq_refl eq_refl At).
  - exact (color_quoted (lit "Song ") t (lit " not found in playlist!")
             eq_refl eq_refl eq_refl eq_refl At).
  - exact (color_quoted (lit "Song ") t (lit " updated successfully!")
             eq_refl eq_refl eq_refl eq_refl At).
  - exact (color_quoted (lit "Song ") t (lit " deleted successfully!")
             eq_refl eq_refl eq_refl eq_refl At).
Qed.

Lemma color_follows_title_witness :
  color (msg_added (lit "Terror")) = Some red
  /\ color (msg_exists (lit "Terror")) = Some red.
Proof.
  refine (let H := color_follows_title (lit "Terror") _ in
          conj (proj1 H) (proj1 (proj2 H))).
  reflexivity.
Defined.

(** * The order of the songs *)

Lemma filter_none {A} (l : list A) : filter (fun _ => false) l = [].
Proof. induction l as [|x l IH]; cbn; congruence. Qed.

Lemma filter_contained (d : Dict.t details) :
  filter (fun k => Dict.contains k d) (Dict.keys d) = Dict.keys d.
Proof.
  rewrite (filter_ext_in _ (fun _ => true)); [apply filter_all|].
  intros k H. apply contains_In, H.
Qed.

Lemma filter_not_contained (d d' : Dict.t details) :
  incl (Dict.keys d') (Dict.keys d) ->
  filter (fun k => negb (Dict.contains k d)) (Dict.keys d') = [].
Proof.
  intros H. rewrite (filter_ext_in _ (fun _ => false)); [apply filter_none|].
  intros k Hk. apply negb_false_iff, contains_In, H, Hk.
Qed.

(** A call that leaves the keys as they were. *)
Lemma keys_same_order (d d' : Dict.t details) :
  Dict.keys d' = Dict.keys d ->
  Dict.keys d'
  = filter (fun k => Dict.contains k d') (Dict.keys d)
    ++ filter (fun k => negb (Dict.contains k d)) (Dict.keys d').
Proof.
  intros E. rewrite filter_not_contained, app_nil_r
    by (rewrite E; apply incl_refl).
  rewrite <- E. symmetry. apply filter_contained.
Qed.

Lemma append_order (d : Dict.t details) k v :
  Dict.contains k d = false ->
  let d' := d ++ [(k, v)] in
  Dict.keys d'
  = filter (fun x => Dict.contains x d') (Dict.keys d)
    ++ filter (fun x => negb (Dict.contains x d)) (Dict.keys d').
Proof.
  intros C d'. subst d'. unfold Dict.keys at 1 3. rewrite map_app, filter_app.
  fold (Dict.keys d). cbn [map fst filter]. rewrite C. cbn [negb].
  rewrite (filter_not_contained d d (incl_refl _)). cbn [app]. f_equal.
  rewrite (filter_ext_in _ (fun _ => true)); [symmetry; apply filter_all|].
  intros x H. apply contains_In. unfold Dict.keys. rewrite map_app.
  apply in_or_app. left; exact H.
Qed.

Lemma del_order (d : Dict.t details) k :
  Dict.wf d ->
  let d' := Dict.del k d in
  Dict.keys d'
  = filter (fun x => Dict.contains x d') (Dict.keys d)
    ++ filter (fun x => negb (Dict.contains x d)) (Dict.keys d').
Proof.
  intros W d'. subst d'.
  rewrite filter_not_contained, app_nil_r
    by (intros x; apply del_keys_incl).
  unfold Dict.wf in W. induction d as [|[k0 v0] d IH]; [reflexivity|].
  inversion W as [|? ? Hn Wd]; subst.
  cbn [Dict.del Dict.keys map fst filter].
  destruct (str_eqb_spec k k0) as [->|N].
  - rewrite (proj2 (contains_false_In _ _) Hn). symmetry. apply filter_contained.
  - cbn [Dict.contains Dict.keys map fst]. rewrite str_eqb_refl. f_equal.
    fold (Dict.keys d) (Dict.keys (Dict.del k d)). rewrite (IH Wd).
    apply filter_ext_in. intros x Hx. cbn [Dict.contains].
    destruct (str_eqb_spec x k0) as [->|Nx]; [|reflexivity].
    exfalso. exact (Hn Hx).
Qed.

(** X16: no call reorders the songs.  After any call on strings, on a
    catalog that holds each key once, the keys are those of before that
    are still there, in the order they had, followed by the key that was
    not there before, if there is one. *)
Theorem calls_keep_order c pm :
  Dict.wf (playlist pm) ->
  let pm' := exec c pm in
  Dict.keys (playlist pm')
  = filter (fun k => Dict.contains k (playlist pm')) (Dict.keys (playlist pm))
    ++ filter (fun k => negb (Dict.contains k (playlist pm)))
         (Dict.keys (playlist pm')).
Proof.
  intros W pm'. subst pm'. unfold exec.
  destruct c as [t a g| |t a g|t]; cbn [run_call].
  - rewrite add_song_run.
    destruct (str_not (strip t) || str_not (strip a) || str_not (strip g));
      [apply keys_same_order; reflexivity|].
    destruct (Dict.contains (strip t) (playlist pm)) eqn:C;
      [apply keys_same_order; reflexivity|].
    cbn [snd playlist]. rewrite (set_absent _ _ _ C). apply append_order, C.
  - rewrite view_playlist_run. apply keys_same_order; reflexivity.
  - apply keys_same_order.
    apply update_song_keys_any.
  - rewrite delete_song_run.
    destruct (Dict.contains (strip t) (playlist pm));
      [|apply keys_same_order; reflexivity].
    cbn [snd playlist]. apply del_order, W.
Qed.

Lemma calls_keep_order_witness :
  Dict.keys (playlist (exec (Delete (lit "Song A")) two_songs)) = [lit "Song B"].
Proof.
  refine (calls_keep_order (Delete (lit "Song A")) two_songs two_songs_wf).
Defined.
